(** * Reader-writer chat server (backend/server.c): model and properties

    The server accepts TCP connections and runs [handle_client] in one
    thread per connection.  Threads share two POSIX semaphores ([mutex],
    [wrt]), the counter [reader_count] and the message collection of the
    database.  The development embeds

    - the C string helpers the handler uses ([rtrim], [strncmp], [strstr],
      [strncat], [snprintf] truncation),
    - [insert_message_to_db_pool] and [fetch_messages_from_db_pool],
    - [handle_client] as a small-step machine: one step per blocking call
      or shared-memory access, with the environment (what [recv] returns,
      how the database answers, the clock) given as a label of the step,
    - the whole server as a pool of such threads over the shared state,

    and then states the properties of the lock, of the writer session and
    of the reader reply over that machine.  The [printf] log lines of the
    server and the start-up code of [main] are left out: no property below
    depends on them. *)

From Stdlib Require Import ZArith Ascii String Lia Bool.
From Stdlib Require Import Sorting.Sorted.
From stdpp Require Import base list strings.

Set Default Proof Using "Type".

(** String concatenation computes on its first argument in this file. *)
#[local] Arguments String.append !s1 s2 / : simpl nomatch.
#[local] Arguments Ascii.eqb : simpl never.

(* ===================================================================== *)
(** ** C strings *)
(* ===================================================================== *)

Module CStr.

Definition NUL : ascii := "000"%char.
Definition LF : ascii := "010"%char.
Definition CR : ascii := "013"%char.

(** A one-character string and a newline-terminated literal: the C
    literal ["text\n"] is [line "text"]. *)
Definition nl : string := String LF EmptyString.
Definition line (text : string) : string := text +:+ nl.

(** What the string functions of C see in a buffer: the bytes before
    the first NUL. *)
Fixpoint cstr (bytes : string) : string :=
  match bytes with
  | EmptyString => EmptyString
  | String c rest => if (c =? NUL)%char then EmptyString else String c (cstr rest)
  end.

(** [s[n-1] == '\n' || s[n-1] == '\r'] *)
Definition is_eol (c : ascii) : bool := (c =? LF)%char || (c =? CR)%char.

Definition is_empty (s : string) : bool :=
  match s with EmptyString => true | String _ _ => false end.

(** [rtrim]: cut the longest suffix made of ['\n'] and ['\r']. *)
Fixpoint rtrim (s : string) : string :=
  match s with
  | EmptyString => EmptyString
  | String c rest =>
      let r := rtrim rest in
      if is_eol c && is_empty r then EmptyString else String c r
  end.

(** The first [n] characters (all of [s] when it is shorter). *)
Fixpoint stake (n : nat) (s : string) : string :=
  match n, s with
  | S n', String c rest => String c (stake n' rest)
  | _, _ => EmptyString
  end.

(** Pointer arithmetic [s + n], for [n <= strlen s]. *)
Fixpoint sdrop (n : nat) (s : string) : string :=
  match n, s with
  | S n', String _ rest => sdrop n' rest
  | _, _ => s
  end.

(** [strncmp(s, lit, n) == 0] *)
Definition strncmp0 (s lit : string) (n : nat) : bool :=
  (stake n s =? stake n lit)%string.

(** [strcmp(s, lit) == 0] *)
Definition strcmp0 (s lit : string) : bool := (s =? lit)%string.

(** [strstr(haystack, needle) != NULL] *)
Fixpoint strstr_found (haystack needle : string) : bool :=
  String.prefix needle haystack ||
  match haystack with
  | EmptyString => false
  | String _ rest => strstr_found rest needle
  end.

(** [strncat(dst, src, n)]: append at most [n] characters of [src]. *)
Definition strncat (dst src : string) (n : nat) : string := dst +:+ stake n src.

(** [snprintf(buf, size, ...)] keeps the first [size - 1] characters of
    the formatted text. *)
Definition snprintf (size : nat) (formatted : string) : string :=
  stake (size - 1) formatted.

(** [strncpy(buf, src, size - 1); buf[size - 1] = 0] *)
Definition strncpy_z (size : nat) (src : string) : string := stake (size - 1) src.

(** The blanks skipped after the role token: space, LF and CR. *)
Definition is_blank (c : ascii) : bool := (c =? " ")%char || is_eol c.

Fixpoint skip_blank (s : string) : string :=
  match s with
  | EmptyString => EmptyString
  | String c rest => if is_blank c then skip_blank rest else s
  end.

(** No character of [s] satisfies [p]. *)
Fixpoint none_of (p : ascii -> bool) (s : string) : bool :=
  match s with
  | EmptyString => true
  | String c rest => negb (p c) && none_of p rest
  end.

End CStr.

Import CStr.

#[local] Arguments stake !n !s.
#[local] Arguments sdrop !n !s.

(* ===================================================================== *)
(** ** Constants and replies *)
(* ===================================================================== *)

Definition BUFFER_SIZE : nat := 4096.

(** [char out[BUFFER_SIZE * 8]] *)
Definition OUT_SIZE : nat := BUFFER_SIZE * 8.

(** [char line[1024]] in [fetch_messages_from_db_pool] *)
Definition LINE_SIZE : nat := 1024.

(** [send(sock, buf, len, 0)] transmits the first [len] bytes of [buf]. *)
Definition send_bytes (buf : string) (len : nat) : string := stake len buf.

(** The literals of the writer branch, each with the length the code
    passes to [send]. *)
Definition MSG_STARTED : string := send_bytes (line "OK: writer session started") 26.
Definition MSG_STOPPED : string := send_bytes (line "OK: writer session stopped") 26.
Definition MSG_NO_SESSION : string := send_bytes (line "ERROR: no active writer session") 32.
Definition MSG_MUST_START : string := send_bytes (line "ERROR: You must start writing first") 36.
Definition MSG_START_FIRST : string := send_bytes (line "ERROR: start writing first") 27.

(* ===================================================================== *)
(** ** Role negotiation (handle_client, lines 143-151) *)
(* ===================================================================== *)

Inductive role := Unknown | Reader | Writer.

(** [mode] after the cascade of [strncmp] and [strstr] tests. *)
Definition mode_of (initial : string) : role :=
  if strncmp0 initial "writer" 6 then Writer
  else if strncmp0 initial "reader" 6 then Reader
  else if strstr_found initial "writer" then Writer
  else if strstr_found initial "reader" then Reader
  else Unknown.

(** [p_after]: the text after the first six characters of the frame, with
    leading blanks skipped; [None] is the NULL pointer. *)
Definition p_after (initial : string) : option string :=
  if (6 <? String.length initial)%nat then
    let p := skip_blank (sdrop 6 initial) in
    Some (if is_empty p then p else rtrim p)
  else None.

(* ===================================================================== *)
(** ** The message store (MongoDB collection chatdb.chat) *)
(* ===================================================================== *)

(** Two's-complement wrap-around of a [bits]-wide signed integer. *)
Definition wrap_signed (bits : Z) (z : Z) : Z :=
  ((z + 2 ^ (bits - 1)) mod 2 ^ bits - 2 ^ (bits - 1))%Z.

(** A stored document.  A field is [None] when the document lacks it or
    holds another BSON type (the tests of lines 111 and 113). *)
Record doc := Doc { d_message : option string; d_timestamp : option Z }.

(** How the client pool answers a call. *)
Inductive db_status := DbReady | DbNoPool | DbNoClient | DbNoCollection.

(** What the environment decides when a message is inserted: the state of
    the pool, [time(NULL)], and the error text when
    [mongoc_collection_insert_one] fails. *)
Record insert_env := InsertEnv {
  ins_status : db_status;
  ins_now : Z;
  ins_error : option string
}.

(** [insert_message_to_db_pool]: the collection afterwards and the result
    string handed to the caller. *)
Definition insert_message_to_db_pool
    (db : list doc) (e : insert_env) (message : string) : list doc * string :=
  match ins_status e with
  | DbNoPool => (db, line "ERROR: no DB pool")
  | DbNoClient => (db, line "ERROR: could not pop client")
  | DbNoCollection => (db, line "ERROR: no collection")
  | DbReady =>
      match ins_error e with
      | Some msg =>
          (db, snprintf 512 ("ERROR: insert failed: " +:+ cstr msg +:+ nl))
      | None =>
          (db ++ [Doc (Some message) (Some (wrap_signed 64 (ins_now e * 1000)))],
           snprintf 256 (line "OK: message stored"))
      end
  end.

(** Modelled from the spec: the query [find] with [sort: {timestamp: 1}]
    is evaluated by the database, which is not part of the repository.
    The spec's store returns every message ascending by timestamp, ties in
    insertion order; a document without a timestamp sorts first. *)
Definition key_le (a b : option Z) : bool :=
  match a, b with
  | None, _ => true
  | Some _, None => false
  | Some x, Some y => (x <=? y)%Z
  end.

Fixpoint insert_by_timestamp (d : doc) (l : list doc) : list doc :=
  match l with
  | [] => [d]
  | x :: rest =>
      if key_le (d_timestamp d) (d_timestamp x) then d :: x :: rest
      else x :: insert_by_timestamp d rest
  end.

Definition find_sorted (db : list doc) : list doc :=
  foldr insert_by_timestamp [] db.

(** One line of the reader reply (lines 107-122).  [strftime_local] is the
    C library's [localtime_r] followed by [strftime] with the format
    ["%Y-%m-%d %H:%M:%S"]. *)
Definition format_line (strftime_local : Z -> string) (d : doc) : string :=
  let msg := match d_message d with Some m => cstr m | None => "(null)" end in
  let millis := match d_timestamp d with Some t => t | None => 0%Z end in
  let sec := Z.quot millis 1000 in
  let timestr := strftime_local sec in
  snprintf LINE_SIZE ("[" +:+ timestr +:+ "] " +:+ msg +:+ nl).

(** [fetch_messages_from_db_pool(buffer, buffer_size)]: the contents of
    [buffer] on return; [cursor] is the sequence the cursor yields. *)
Definition fetch_messages_from_db_pool (strftime_local : Z -> string)
    (st : db_status) (cursor : list doc) (buffer_size : nat) : string :=
  match st with
  | DbNoPool => strncpy_z buffer_size (line "No DB pool")
  | DbNoClient => strncpy_z buffer_size (line "DB client unavailable")
  | DbNoCollection => strncpy_z buffer_size (line "DB collection unavailable")
  | DbReady =>
      foldl (fun buffer d =>
               strncat buffer (format_line strftime_local d)
                       (buffer_size - String.length buffer - 1))
            EmptyString cursor
  end.

(* ===================================================================== *)
(** ** handle_client as a step machine *)
(* ===================================================================== *)

(** The result of one [recv]: the bytes read ([r = length], zero at end of
    stream) or an error ([r < 0]). *)
Inductive recv_result := RecvBytes (bytes : string) | RecvError.

(** [recv(sock, buf, sizeof(buf)-1, 0)] followed by the test [r > 0]: the
    bytes now in the buffer, at most [BUFFER_SIZE - 1] of them. *)
Definition recv (x : recv_result) : option string :=
  match x with
  | RecvError => None
  | RecvBytes bytes =>
      let b := stake (BUFFER_SIZE - 1) bytes in
      if is_empty b then None else Some b
  end.

(** What the environment contributes to a step. *)
Inductive env :=
| ERecv (r : recv_result)
| EInsert (e : insert_env)
| EFetch (st : db_status) (strftime_local : Z -> string)
| ETau.

(** Control points of [handle_client]; a writer's local [has_lock] is part
    of the control point. *)
Inductive pc :=
| AwaitRole                                  (* line 138, first recv *)
| WStart (has_lock : bool)                   (* at sem_wait(&wrt), lines 166 and 192 *)
| WLoop (has_lock : bool)                    (* at recv, line 186 *)
| WStop                                      (* has_lock = 0 done, at sem_post(&wrt), line 199 *)
| WInsert (has_lock : bool) (msg : string)   (* at insert_message_to_db_pool, lines 178 and 214 *)
| WTeardown (has_lock : bool)                (* line 220 *)
| RLock1                                     (* at sem_wait(&mutex), line 231 *)
| RIncr                                      (* at reader_count++, line 232 *)
| RGateIn                                    (* at if (reader_count == 1) sem_wait(&wrt) *)
| RUnlock1                                   (* at sem_post(&mutex), line 234 *)
| RFetch                                     (* fetch and send, lines 237-239 *)
| RLock2                                     (* at sem_wait(&mutex), line 241 *)
| RDecr                                      (* at reader_count--, line 242 *)
| RGateOut                                   (* at if (reader_count == 0) sem_post(&wrt) *)
| RUnlock2                                   (* at sem_post(&mutex), line 244, then close *)
| Done.

#[global] Instance pc_eq_dec : EqDecision pc.
Proof. solve_decision. Defined.

(** A connection thread: where it is, what it has sent on its socket (one
    entry per [send]) and whether the socket is still open. *)
Record thread := Thread { t_pc : pc; t_sent : list string; t_open : bool }.

Definition new_thread : thread := Thread AwaitRole [] true.

Definition goto (p : pc) (t : thread) : thread := Thread p (t_sent t) (t_open t).

Definition send (payload : string) (t : thread) : thread :=
  Thread (t_pc t) (t_sent t ++ [payload]) (t_open t).

(** [close(sock); return NULL] *)
Definition close_and_return (t : thread) : thread := Thread Done (t_sent t) false.

(** The state shared by all threads. *)
Record shared := Shared {
  wrt : nat;            (* sem_t wrt *)
  mutex : nat;          (* sem_t mutex *)
  reader_count : Z;     (* static int reader_count *)
  db : list doc         (* the collection *)
}.

Definition set_wrt (v : nat) (g : shared) : shared :=
  Shared v (mutex g) (reader_count g) (db g).
Definition set_mutex (v : nat) (g : shared) : shared :=
  Shared (wrt g) v (reader_count g) (db g).
Definition set_reader_count (v : Z) (g : shared) : shared :=
  Shared (wrt g) (mutex g) v (db g).
Definition set_db (v : list doc) (g : shared) : shared :=
  Shared (wrt g) (mutex g) (reader_count g) v.

(** The first frame (lines 138-183 and the dispatch of lines 153, 229,
    250). *)
Definition on_first_frame (r : recv_result) (t : thread) : thread :=
  match recv r with
  | None => close_and_return t
  | Some bytes =>
      let initial := rtrim (cstr bytes) in
      match mode_of initial with
      | Writer =>
          let has_lock := false in
          match p_after initial with
          | Some p =>
              if (0 <? String.length p)%nat then
                if strcmp0 p "start" then goto (WStart has_lock) t
                else if strcmp0 p "stop" then goto (WLoop has_lock) (send MSG_STOPPED t)
                else if negb has_lock then goto (WLoop has_lock) (send MSG_START_FIRST t)
                else goto (WInsert has_lock p) t
              else goto (WLoop has_lock) t
          | None => goto (WLoop has_lock) t
          end
      | Reader => goto RLock1 t
      | Unknown => close_and_return t
      end
  end.

(** One iteration of the writer loop up to its first shared operation
    (lines 186-217). *)
Definition on_command (has_lock : bool) (r : recv_result) (t : thread) : thread :=
  match recv r with
  | None => goto (WTeardown has_lock) t
  | Some bytes =>
      let buf := rtrim (cstr bytes) in
      if (String.length buf =? 0)%nat then goto (WLoop has_lock) t
      else if strcmp0 buf "start" then goto (WStart has_lock) t
      else if strcmp0 buf "stop" then
        if has_lock then goto WStop t
        else goto (WLoop has_lock) (send MSG_NO_SESSION t)
      else if strcmp0 buf "exit" then goto (WTeardown has_lock) t
      else if negb has_lock then goto (WLoop has_lock) (send MSG_MUST_START t)
      else goto (WInsert has_lock buf) t
  end.

(** One step of a thread.  [None]: the thread cannot move (it is blocked
    in [sem_wait], has returned, or the label is not the one its call
    needs). *)
Definition thread_step (e : env) (g : shared) (t : thread) : option (shared * thread) :=
  match t_pc t, e with
  | AwaitRole, ERecv r => Some (g, on_first_frame r t)
  | WLoop has_lock, ERecv r => Some (g, on_command has_lock r t)
  | WStart _, ETau =>
      match wrt g with
      | O => None
      | S v => Some (set_wrt v g, goto (WLoop true) (send MSG_STARTED t))
      end
  | WStop, ETau =>
      Some (set_wrt (S (wrt g)) g, goto (WLoop false) (send MSG_STOPPED t))
  | WInsert has_lock msg, EInsert ie =>
      let '(db', res) := insert_message_to_db_pool (db g) ie msg in
      Some (set_db db' g,
            goto (WLoop has_lock) (send (send_bytes res (String.length res)) t))
  | WTeardown has_lock, ETau =>
      Some (if has_lock then set_wrt (S (wrt g)) g else g, close_and_return t)
  | RLock1, ETau =>
      match mutex g with
      | O => None
      | S v => Some (set_mutex v g, goto RIncr t)
      end
  | RIncr, ETau =>
      Some (set_reader_count (wrap_signed 32 (reader_count g + 1)) g, goto RGateIn t)
  | RGateIn, ETau =>
      if (reader_count g =? 1)%Z then
        match wrt g with
        | O => None
        | S v => Some (set_wrt v g, goto RUnlock1 t)
        end
      else Some (g, goto RUnlock1 t)
  | RUnlock1, ETau => Some (set_mutex (S (mutex g)) g, goto RFetch t)
  | RFetch, EFetch st strftime_local =>
      let out :=
        fetch_messages_from_db_pool strftime_local st (find_sorted (db g)) OUT_SIZE in
      Some (g, goto RLock2 (send (send_bytes out (String.length out)) t))
  | RLock2, ETau =>
      match mutex g with
      | O => None
      | S v => Some (set_mutex v g, goto RDecr t)
      end
  | RDecr, ETau =>
      Some (set_reader_count (wrap_signed 32 (reader_count g - 1)) g, goto RGateOut t)
  | RGateOut, ETau =>
      Some (if (reader_count g =? 0)%Z then set_wrt (S (wrt g)) g else g,
            goto RUnlock2 t)
  | RUnlock2, ETau => Some (set_mutex (S (mutex g)) g, close_and_return t)
  | _, _ => None
  end.

(* ===================================================================== *)
(** ** The server: a pool of connection threads *)
(* ===================================================================== *)

Record server := Server { sh : shared; pool : list thread }.

(** [main] after start-up: both semaphores initialised to 1, no reader, no
    connection yet; [db0] is what the collection holds at start. *)
Definition init (db0 : list doc) : server := Server (Shared 1 1 0 db0) [].

(** What happens next: the accept loop starts a thread for a new
    connection, or thread [i] makes a step. *)
Inductive action := Accept | Run (i : nat) (e : env).

Definition server_step (a : action) (s : server) : option server :=
  match a with
  | Accept => Some (Server (sh s) (pool s ++ [new_thread]))
  | Run i e =>
      t ← pool s !! i;
      '(g', t') ← thread_step e (sh s) t;
      Some (Server g' (<[i := t']> (pool s)))
  end.

Fixpoint run (schedule : list action) (s : server) : option server :=
  match schedule with
  | [] => Some s
  | a :: rest => s' ← server_step a s; run rest s'
  end.

Definition reachable (db0 : list doc) (s : server) : Prop :=
  ∃ schedule, run schedule (init db0) = Some s.

(* ===================================================================== *)
(** ** Vocabulary of the properties *)
(* ===================================================================== *)

(** The role a control point belongs to. *)
Definition pc_role (p : pc) : role :=
  match p with
  | AwaitRole | Done => Unknown
  | WStart _ | WLoop _ | WStop | WInsert _ _ | WTeardown _ => Writer
  | RLock1 | RIncr | RGateIn | RUnlock1 | RFetch | RLock2 | RDecr | RGateOut
  | RUnlock2 => Reader
  end.

(** The text begins with the word. *)
Definition starts_with (word text : string) : Prop :=
  ∃ rest, text = word +:+ rest.

(** The word occurs somewhere in the text. *)
Definition occurs_in (word text : string) : Prop :=
  ∃ before after, text = before +:+ word +:+ after.

(** The last byte of a reply is a line feed. *)
Fixpoint ends_with_newline (s : string) : bool :=
  match s with
  | EmptyString => false
  | String c EmptyString => (c =? LF)%char
  | String _ rest => ends_with_newline rest
  end.

(** Lines joined into one buffer. *)
Definition concat_lines (lines : list string) : string :=
  foldr String.append EmptyString lines.

(** The number of line feeds in a reply. *)
Fixpoint count_newlines (s : string) : nat :=
  match s with
  | EmptyString => 0
  | String c rest => (if (c =? LF)%char then 1 else 0) + count_newlines rest
  end.

(** The spec's message: a text and the instant it was stored, in
    milliseconds; and the document that stores it. *)
Record message := Message { text : string; timestamp : Z }.

Definition doc_of (m : message) : doc := Doc (Some (text m)) (Some (timestamp m)).

(** The reply line the spec prescribes for a message,
    "[<formatted timestamp>] <message text>", newline-terminated. *)
Definition spec_line (strftime_local : Z -> string) (m : message) : string :=
  "[" +:+ strftime_local (Z.quot (timestamp m) 1000) +:+ "] " +:+ text m +:+ nl.

(** A message whose text is a C string and whose line fits the line
    buffer. *)
Definition fits_line (strftime_local : Z -> string) (m : message) : Prop :=
  cstr (text m) = text m ∧
  String.length (spec_line strftime_local m) ≤ LINE_SIZE - 1.

(** Ascending by timestamp. *)
Definition ts_le (a b : doc) : Prop := key_le (d_timestamp a) (d_timestamp b) = true.

(** The control point after a step of a reader. *)
Definition reader_next (p : pc) : pc :=
  match p with
  | RLock1 => RIncr
  | RIncr => RGateIn
  | RGateIn => RUnlock1
  | RUnlock1 => RFetch
  | RFetch => RLock2
  | RLock2 => RDecr
  | RDecr => RGateOut
  | RGateOut => RUnlock2
  | RUnlock2 => Done
  | p => p
  end.

(** A thread run on its own: the steps of one thread in sequence. *)
Fixpoint thread_run (labels : list env) (g : shared) (t : thread)
    : option (shared * thread) :=
  match labels with
  | [] => Some (g, t)
  | e :: rest => '(g', t') ← thread_step e g t; thread_run rest g' t'
  end.

(** [n] copies of a character. *)
Fixpoint string_of (n : nat) (c : ascii) : string :=
  match n with
  | O => EmptyString
  | S n' => String c (string_of n' c)
  end.

(** *** Who holds what *)

(** The thread holds [mutex]: between a [sem_wait(&mutex)] and the next
    [sem_post(&mutex)]. *)
Definition mutex_held (p : pc) : nat :=
  match p with
  | RIncr | RGateIn | RUnlock1 | RDecr | RGateOut | RUnlock2 => 1
  | _ => 0
  end.

(** The thread is counted in [reader_count]: after its increment and
    before its decrement. *)
Definition counted (p : pc) : nat :=
  match p with
  | RGateIn | RUnlock1 | RFetch | RLock2 | RDecr => 1
  | _ => 0
  end.

(** A writer holds the gate: after its [sem_wait(&wrt)] has returned and
    before its [sem_post(&wrt)]. *)
Definition writer_holds (p : pc) : nat :=
  match p with
  | WStart true | WLoop true | WStop | WInsert true _ | WTeardown true => 1
  | _ => 0
  end.

(** The first reader, counted, has not taken the gate yet. *)
Definition gate_owed (rc : Z) (p : pc) : nat :=
  match p with
  | RGateIn => if (rc =? 1)%Z then 1 else 0
  | _ => 0
  end.

(** The last reader, no longer counted, has not released the gate yet. *)
Definition gate_kept (rc : Z) (p : pc) : nat :=
  match p with
  | RGateOut => if (rc =? 0)%Z then 1 else 0
  | _ => 0
  end.

(** The reader is past its entry section and before its decrement: it
    reads, or is about to, or has just done so. *)
Definition in_read_section (p : pc) : bool :=
  match p with
  | RUnlock1 | RFetch | RLock2 | RDecr => true
  | _ => false
  end.

(** A measure summed over the threads of the pool. *)
Definition total (f : pc → nat) (l : list thread) : nat :=
  sum_list_with (λ t, f (t_pc t)) l.

(** The same over the threads other than thread [i]. *)
Definition others (f : pc → nat) (i : nat) (l : list thread) : nat :=
  total f (take i l) + total f (drop (S i) l).

(** The invariant of the lock: [mutex] is a binary semaphore,
    [reader_count] counts the counted readers, and the unit of [wrt] is
    either in the semaphore, or with one writer, or with the readers. *)
Record lock_inv (s : server) : Prop := LockInv {
  inv_mutex : mutex (sh s) + total mutex_held (pool s) = 1;
  inv_count : reader_count (sh s) = Z.of_nat (total counted (pool s));
  inv_gate :
    wrt (sh s) + total writer_holds (pool s)
    + Nat.min 1 (total counted (pool s))
    + total (gate_kept (reader_count (sh s))) (pool s)
    = 1 + total (gate_owed (reader_count (sh s))) (pool s)
}.

(* ===================================================================== *)
(** ** Further vocabulary: stored messages, idle threads *)
(* ===================================================================== *)

(** Every character of [s] satisfies [p]. *)
Fixpoint all_of (p : ascii → bool) (s : string) : bool :=
  match s with
  | EmptyString => true
  | String c rest => p c && all_of p rest
  end.

(** The last character of [s] satisfies [p] ([false] for the empty
    string). *)
Fixpoint ends_in (p : ascii → bool) (s : string) : bool :=
  match s with
  | EmptyString => false
  | String c EmptyString => p c
  | String _ rest => ends_in p rest
  end.

(** The first character of [s] satisfies [p]. *)
Definition starts_in (p : ascii → bool) (s : string) : bool :=
  match s with
  | EmptyString => false
  | String c _ => p c
  end.

(** A text the writer loop hands to [insert_message_to_db_pool]: a
    non-empty C string that fits the receive buffer, has no line end left
    at its end, and is none of the control words. *)
Definition storable (m : string) : Prop :=
  m ≠ "" ∧ m ≠ "start" ∧ m ≠ "stop" ∧ m ≠ "exit" ∧
  cstr m = m ∧ rtrim m = m ∧ String.length m ≤ BUFFER_SIZE - 1.

(** A document as this server writes it. *)
Definition stored_by_server (d : doc) : Prop :=
  ∃ m ts, d = Doc (Some m) (Some ts) ∧ storable m ∧ (- 2 ^ 63 ≤ ts < 2 ^ 63)%Z.

(** A thread about to insert holds the lock and has a storable text. *)
Definition insert_pending_ok (t : thread) : Prop :=
  ∀ h m, t_pc t = WInsert h m → h = true ∧ storable m.

(** The socket is open exactly until the handler returns. *)
Definition open_until_done (t : thread) : Prop :=
  t_open t = negb (bool_decide (t_pc t = Done)).

(** A reply that starts with "OK: " or with "ERROR: ". *)
Definition ok_or_error (reply : string) : bool :=
  String.prefix "OK: " reply || String.prefix "ERROR: " reply.

(** Nothing is sent before the role is known, and a writer has received
    only such replies. *)
Definition writer_replies_ok (t : thread) : Prop :=
  (t_pc t = AwaitRole → t_sent t = []) ∧
  (pc_role (t_pc t) = Writer → Forall (λ reply, ok_or_error reply = true) (t_sent t)).


(** The thread holds neither semaphore and is not counted as a reader. *)
Definition idle (p : pc) : bool :=
  match p with
  | AwaitRole | WStart false | WLoop false | WInsert false _ | WTeardown false
  | RLock1 | Done => true
  | _ => false
  end.

(* ===================================================================== *)
(** ** The accept loop of main (server.c, lines 291-306) *)
(* ===================================================================== *)

(** One call of [accept] and what follows it: a failure (with whether
    [errno] is [EINTR] and the value of [running] read in that test), or a
    connection (with whether [malloc] and [pthread_create] succeed). *)
Inductive accept_outcome :=
| AcceptFailed (eintr running_after : bool)
| Accepted (malloc_ok create_ok : bool).

(** What the loop did with one connection or failure. *)
Inductive handled := Started | ClosedUnserved | Retried.

#[global] Instance handled_eq_dec : EqDecision handled.
Proof. solve_decision. Defined.

(** The loop [while (running)]: each element gives the value of [running]
    read by the loop test and the outcome of the [accept] that follows.
    The result lists what was done, in order, and tells whether the loop
    was left. *)
Fixpoint accept_loop (events : list (bool * accept_outcome)) : list handled * bool :=
  match events with
  | [] => ([], false)
  | (running, outcome) :: rest =>
      if negb running then ([], true)
      else
        match outcome with
        | AcceptFailed eintr running_after =>
            if eintr && negb running_after then ([], true)
            else let '(hs, stopped) := accept_loop rest in (Retried :: hs, stopped)
        | Accepted malloc_ok create_ok =>
            let h := if malloc_ok && create_ok then Started else ClosedUnserved in
            let '(hs, stopped) := accept_loop rest in (h :: hs, stopped)
        end
  end.

(** What the loop does with an outcome it gets to handle. *)
Definition served (o : accept_outcome) : handled :=
  match o with
  | AcceptFailed _ _ => Retried
  | Accepted malloc_ok create_ok =>
      if malloc_ok && create_ok then Started else ClosedUnserved
  end.

(** The loop survives the event: [running] is set at the loop test, and
    a failed [accept] is not an interruption with [running] cleared. *)
Definition stays_up (ev : bool * accept_outcome) : bool :=
  ev.1 &&
  match ev.2 with
  | AcceptFailed eintr running_after => negb (eintr && negb running_after)
  | Accepted _ _ => true
  end.

Definition started (hs : list handled) : nat :=
  length (filter (λ h, h = Started) hs).

(** The threads the loop starts, as steps of the server. *)
Definition accept_actions (hs : list handled) : list action :=
  hs ≫= λ h, match h with Started => [Accept] | _ => [] end.

(* ===================================================================== *)
(** ** The client (client.c) *)
(* ===================================================================== *)

(** [char mode[10]] and [char buffer[BUFFER_SIZE]] of the client. *)
Definition CLIENT_MODE_SIZE : nat := 10.
Definition CLIENT_BUFFER_SIZE : nat := 1024.

(** [isspace]: where the token read by [scanf("%s")] ends. *)
Definition is_space (c : ascii) : bool :=
  (c =? " ")%char || (c =? "009")%char || (c =? "010")%char ||
  (c =? "011")%char || (c =? "012")%char || (c =? "013")%char.

(** Writing [new] over the start of the array contents [old]. *)
Definition overlay (new old : string) : string :=
  new +:+ sdrop (String.length new) old.

(** [scanf("%s", mode)] stores the token and a NUL into [mode], whose
    other bytes keep what the array held ([mode0]); then
    [send(sock, mode, sizeof(mode), 0)] transmits the whole array.  A
    token of ten characters or more overruns the array: [None]. *)
Definition client_role_frame (mode0 token : string) : option string :=
  if (String.length token <? CLIENT_MODE_SIZE)%nat then
    Some (stake CLIENT_MODE_SIZE (overlay (token +:+ String NUL EmptyString) mode0))
  else None.

(** [buffer[strcspn(buffer, "\n")] = 0]: the text before the first line
    feed. *)
Fixpoint cut_at_newline (s : string) : string :=
  match s with
  | EmptyString => EmptyString
  | String c rest => if (c =? LF)%char then EmptyString else String c (cut_at_newline rest)
  end.

(** One iteration of the writer loop of the client: [line] is what
    [fgets] stored; the frame is the [strlen(buffer)] bytes sent. *)
Definition client_line_frame (line : string) : string :=
  cut_at_newline (cstr line).

(* ===================================================================== *)
(** ** Facts about the string helpers *)
(* ===================================================================== *)

Section CStrFacts.

Lemma stake_all (s : string) : stake (String.length s) s = s.
Proof. induction s as [|c s IH]; simpl; [done | by rewrite IH]. Qed.

Lemma send_all (s : string) : send_bytes s (String.length s) = s.
Proof. apply stake_all. Qed.

Lemma stake_length (n : nat) (s : string) :
  String.length (stake n s) = Nat.min n (String.length s).
Proof.
  revert s; induction n as [|n IH]; intros [|c s]; simpl; try done.
  by rewrite IH.
Qed.

Lemma stake_small (n : nat) (s : string) :
  String.length s ≤ n → stake n s = s.
Proof.
  revert s; induction n as [|n IH]; intros [|c s]; simpl; intros H; try done.
  - lia.
  - rewrite IH; [done | lia].
Qed.

Lemma append_length (a b : string) :
  String.length (a +:+ b) = String.length a + String.length b.
Proof. induction a as [|c a IH]; simpl; [done | by rewrite IH]. Qed.

Lemma append_assoc (a b c : string) : (a +:+ b) +:+ c = a +:+ (b +:+ c).
Proof. induction a as [|x a IH]; simpl; [done | by rewrite IH]. Qed.

Lemma append_empty_r (a : string) : a +:+ EmptyString = a.
Proof. induction a as [|x a IH]; simpl; [done | by rewrite IH]. Qed.

(** Cutting a concatenation: the cut falls in the first or in the second
    part. *)
Lemma stake_append (n : nat) (a b : string) :
  stake n (a +:+ b) = stake n a +:+ stake (n - String.length a) b.
Proof.
  revert a; induction n as [|n IH]; intros [|c a]; simpl; try done.
  by rewrite IH.
Qed.

Lemma stake_stake (n m : nat) (s : string) :
  stake n (stake m s) = stake (Nat.min n m) s.
Proof.
  revert m s; induction n as [|n IH]; intros [|m] [|c s]; simpl; try done.
  by rewrite IH.
Qed.

(** [strncmp] against a literal over the literal's length is a prefix
    test. *)
Lemma strncmp0_prefix (lit s : string) :
  strncmp0 s lit (String.length lit) = String.prefix lit s.
Proof.
  unfold strncmp0. revert s; induction lit as [|a lit IH]; intros s.
  - by destruct s.
  - destruct s as [|b s]; simpl; [done |].
    rewrite <- IH. destruct (ascii_dec a b) as [->|Hne].
    + by rewrite Ascii.eqb_refl.
    + destruct (Ascii.eqb_spec b a); [congruence | done].
Qed.

Lemma prefix_empty_r (w : string) : String.prefix w EmptyString = is_empty w.
Proof. by destruct w. Qed.

(** Trimming the end of a string does not change whether it starts with
    a word free of line ends. *)
Lemma prefix_rtrim (w s : string) :
  none_of is_eol w = true → String.prefix w (rtrim s) = String.prefix w s.
Proof.
  revert w; induction s as [|c s IH]; intros w Hw; [done |].
  destruct w as [|a w]; [by destruct (rtrim (String c s)) |].
  simpl in Hw. apply andb_true_iff in Hw as [Ha Hw].
  cbn [rtrim]. cbn [String.prefix]. destruct (ascii_dec a c) as [->|Hne].
  - apply negb_true_iff in Ha. rewrite Ha. cbn [andb String.prefix].
    destruct (ascii_dec c c); [by apply IH | done].
  - destruct (is_eol c && is_empty (rtrim s)); cbn [String.prefix]; [done |].
    by destruct (ascii_dec a c).
Qed.

Lemma strstr_found_empty (w : string) :
  strstr_found EmptyString w = is_empty w.
Proof. destruct w; by simpl. Qed.

(** ... nor whether the word occurs in it. *)
Lemma strstr_found_rtrim (w s : string) :
  none_of is_eol w = true → is_empty w = false →
  strstr_found (rtrim s) w = strstr_found s w.
Proof.
  intros Hw Hne. induction s as [|c s IH]; [done |].
  assert (Hp := prefix_rtrim w (String c s) Hw).
  cbn [rtrim] in *.
  destruct (is_eol c && is_empty (rtrim s)) eqn:Hcut.
  - apply andb_true_iff in Hcut as [_ Hr].
    destruct (rtrim s); [|done].
    cbn [strstr_found]. rewrite <- Hp, <- IH, strstr_found_empty.
    rewrite prefix_empty_r, Hne. done.
  - cbn [strstr_found]. by rewrite Hp, IH.
Qed.

Lemma cstr_idem (s : string) : cstr (cstr s) = cstr s.
Proof.
  induction s as [|c s IH]; simpl; [done |].
  destruct (c =? NUL)%char eqn:E; simpl; [done |]. by rewrite E, IH.
Qed.

Lemma cstr_length (s : string) : String.length (cstr s) ≤ String.length s.
Proof.
  induction s as [|c s IH]; simpl; [done |].
  destruct (c =? NUL)%char; simpl; lia.
Qed.

Lemma cstr_no_nul (s : string) :
  none_of (Ascii.eqb NUL) s = true → cstr s = s.
Proof.
  induction s as [|c s IH]; simpl; [done |].
  intros [Hc Hs]%andb_true_iff. apply negb_true_iff in Hc.
  rewrite Ascii.eqb_sym, Hc, IH; done.
Qed.

Lemma cstr_none_of_nul (s : string) : none_of (Ascii.eqb NUL) (cstr s) = true.
Proof.
  induction s as [|c s IH]; simpl; [done |].
  destruct (c =? NUL)%char eqn:E; simpl; [done |].
  by rewrite Ascii.eqb_sym, E, IH.
Qed.

Lemma rtrim_none_of (p : ascii → bool) (s : string) :
  none_of p s = true → none_of p (rtrim s) = true.
Proof.
  induction s as [|c s IH]; simpl; [done |].
  intros [Hc Hs]%andb_true_iff.
  destruct (is_eol c && is_empty (rtrim s)); simpl; [done |].
  by rewrite Hc, IH.
Qed.

Lemma rtrim_length (s : string) : String.length (rtrim s) ≤ String.length s.
Proof.
  induction s as [|c s IH]; simpl; [done |].
  destruct (is_eol c && is_empty (rtrim s)); simpl; lia.
Qed.

Lemma rtrim_idem (s : string) : rtrim (rtrim s) = rtrim s.
Proof.
  induction s as [|c s IH]; simpl; [done |].
  destruct (is_eol c && is_empty (rtrim s)) eqn:E; simpl; [done |].
  by rewrite IH, E.
Qed.

Lemma sdrop_none_of (p : ascii → bool) (n : nat) (s : string) :
  none_of p s = true → none_of p (sdrop n s) = true.
Proof.
  revert s; induction n as [|n IH]; intros [|c s]; simpl; try done.
  intros [_ Hs]%andb_true_iff. by apply IH.
Qed.

Lemma sdrop_length (n : nat) (s : string) :
  String.length (sdrop n s) = String.length s - n.
Proof.
  revert s; induction n as [|n IH]; intros [|c s]; simpl; try done.
Qed.

Lemma skip_blank_none_of (p : ascii → bool) (s : string) :
  none_of p s = true → none_of p (skip_blank s) = true.
Proof.
  induction s as [|c s IH]; simpl; [done |].
  intros [Hc Hs]%andb_true_iff.
  destruct (is_blank c); simpl; [by apply IH | by rewrite Hc, Hs].
Qed.

Lemma skip_blank_length (s : string) :
  String.length (skip_blank s) ≤ String.length s.
Proof.
  induction s as [|c s IH]; simpl; [done |].
  destruct (is_blank c); simpl; lia.
Qed.

Lemma is_empty_length (s : string) :
  is_empty s = (String.length s =? 0)%nat.
Proof. by destruct s. Qed.

End CStrFacts.

(* ===================================================================== *)
(** ** Role negotiation *)
(* ===================================================================== *)

Section Negotiation.

Lemma reader_prefix_not_writer (s : string) :
  String.prefix "reader" s = true → String.prefix "writer" s = false.
Proof.
  destruct s as [|c s]; [done |]. cbn [String.prefix].
  destruct (ascii_dec "r" c) as [<-|]; [|done].
  intros _. by destruct (ascii_dec "w" "r").
Qed.

(** The cascade of line 145-151 in terms of the untrimmed text. *)
Lemma mode_of_rtrim (text : string) :
  mode_of (rtrim text) =
    if String.prefix "writer" text then Writer
    else if String.prefix "reader" text then Reader
    else if strstr_found text "writer" then Writer
    else if strstr_found text "reader" then Reader
    else Unknown.
Proof.
  unfold mode_of.
  change 6 with (String.length "writer") at 1.
  change 6 with (String.length "reader").
  by rewrite !strncmp0_prefix, !prefix_rtrim, !strstr_found_rtrim.
Qed.

Lemma first_frame_role (bytes : string) (t : thread) :
  recv (RecvBytes bytes) = Some bytes →
  pc_role (t_pc (on_first_frame (RecvBytes bytes) t))
  = mode_of (rtrim (cstr bytes)).
Proof.
  intros Hr. unfold on_first_frame. rewrite Hr.
  destruct (mode_of (rtrim (cstr bytes))); [done | done |].
  destruct (p_after _) as [p|]; [|done].
  destruct (0 <? String.length p)%nat; [|done].
  destruct (strcmp0 p "start"); [done |].
  by destruct (strcmp0 p "stop").
Qed.

Lemma first_frame_unknown (bytes : string) (t : thread) :
  recv (RecvBytes bytes) = Some bytes →
  mode_of (rtrim (cstr bytes)) = Unknown →
  on_first_frame (RecvBytes bytes) t = close_and_return t.
Proof. intros Hr Hm. unfold on_first_frame. by rewrite Hr, Hm. Qed.

(** The prefix test decides [starts_with]. *)
Lemma prefix_starts_with (word text : string) :
  String.prefix word text = true ↔ starts_with word text.
Proof.
  unfold starts_with. revert text; induction word as [|a word IH]; intros text.
  - split; [intros _; by exists text | by destruct text].
  - destruct text as [|c text]; cbn [String.prefix String.append].
    + split; [done | by intros [rest H]].
    + destruct (ascii_dec a c) as [->|Hne].
      * rewrite IH. split; intros [rest H]; exists rest; congruence.
      * split; [done | intros [rest H]; congruence].
Qed.

(** [strstr] finds the word exactly when it occurs somewhere in the
    text. *)
Lemma strstr_found_occurs (word text : string) :
  strstr_found text word = true ↔ occurs_in word text.
Proof.
  unfold occurs_in. split.
  - induction text as [|c text IH]; cbn [strstr_found].
    + rewrite orb_false_r. intros [rest H]%prefix_starts_with.
      by exists EmptyString, rest.
    + intros [Hp | Hs]%orb_true_iff.
      * apply prefix_starts_with in Hp as [rest H]. by exists EmptyString, rest.
      * destruct (IH Hs) as (before & after & H).
        exists (String c before), after. cbn [String.append]. by rewrite H.
  - intros (before & after & ->). induction before as [|c before IH].
    + cbn [String.append].
      assert (Hp : String.prefix word (word +:+ after) = true)
        by (apply prefix_starts_with; by exists after).
      destruct (word +:+ after); cbn [strstr_found]; by rewrite Hp.
    + cbn [String.append strstr_found]. by rewrite IH, orb_true_r.
Qed.

Lemma not_starts_with (word text : string) :
  ¬ starts_with word text → String.prefix word text = false.
Proof.
  intros H. destruct (String.prefix word text) eqn:E; [|done].
  by apply prefix_starts_with in E.
Qed.

Lemma not_occurs_in (word text : string) :
  ¬ occurs_in word text → strstr_found text word = false.
Proof.
  intros H. destruct (strstr_found text word) eqn:E; [|done].
  by apply strstr_found_occurs in E.
Qed.

(** The dispatch on the first frame in terms of the tests the code
    makes. *)
Lemma first_frame_tests (bytes : string) (t : thread) :
  recv (RecvBytes bytes) = Some bytes →
  let text := cstr bytes in
  let t' := on_first_frame (RecvBytes bytes) t in
  (String.prefix "reader" text = true → pc_role (t_pc t') = Reader) ∧
  (String.prefix "writer" text = true → pc_role (t_pc t') = Writer) ∧
  (String.prefix "reader" text = false → String.prefix "writer" text = false →
   strstr_found text "writer" = true → pc_role (t_pc t') = Writer) ∧
  (String.prefix "reader" text = false → String.prefix "writer" text = false →
   strstr_found text "writer" = false → strstr_found text "reader" = true →
   pc_role (t_pc t') = Reader) ∧
  (strstr_found text "writer" = false → strstr_found text "reader" = false →
   t_pc t' = Done ∧ t_open t' = false ∧ t_sent t' = t_sent t).
Proof.
  intros Hr text t'.
  assert (Hrole : pc_role (t_pc t') = mode_of (rtrim text))
    by (by apply first_frame_role).
  rewrite mode_of_rtrim in Hrole.
  split_and!.
  - intros Hp. by rewrite Hrole, (reader_prefix_not_writer _ Hp), Hp.
  - intros Hp. by rewrite Hrole, Hp.
  - intros Hp1 Hp2 Hs. by rewrite Hrole, Hp1, Hp2, Hs.
  - intros Hp1 Hp2 Hs1 Hs2. by rewrite Hrole, Hp1, Hp2, Hs1, Hs2.
  - intros Hs1 Hs2. subst t'.
    rewrite first_frame_unknown; [done | done |].
    rewrite mode_of_rtrim. fold text.
    destruct (String.prefix "writer" text) eqn:Hw.
    { assert (strstr_found text "writer" = true); [|congruence].
      destruct text; cbn [strstr_found]; by rewrite Hw. }
    destruct (String.prefix "reader" text) eqn:Hd.
    { assert (strstr_found text "reader" = true); [|congruence].
      destruct text; cbn [strstr_found]; by rewrite Hd. }
    by rewrite Hs1, Hs2.
Qed.

End Negotiation.

(** C7. Role negotiation.  For the first frame of a connection, read as
    the NUL-terminated text in the receive buffer: a frame that starts with
    "reader" makes the connection a reader; one that starts with "writer" a
    writer; when neither prefix matches, an occurrence of "writer" anywhere
    in the frame makes it a writer and otherwise an occurrence of "reader"
    anywhere in the frame makes it a reader; a frame in which neither word
    occurs (such as "spectator") gets the socket closed with nothing
    sent. *)
Theorem role_negotiation (bytes : string) (t : thread) :
  recv (RecvBytes bytes) = Some bytes →
  let text := cstr bytes in
  let t' := on_first_frame (RecvBytes bytes) t in
  (starts_with "reader" text → pc_role (t_pc t') = Reader) ∧
  (starts_with "writer" text → pc_role (t_pc t') = Writer) ∧
  (¬ starts_with "reader" text → ¬ starts_with "writer" text →
   occurs_in "writer" text → pc_role (t_pc t') = Writer) ∧
  (¬ starts_with "reader" text → ¬ starts_with "writer" text →
   ¬ occurs_in "writer" text → occurs_in "reader" text →
   pc_role (t_pc t') = Reader) ∧
  (¬ occurs_in "writer" text → ¬ occurs_in "reader" text →
   t_pc t' = Done ∧ t_open t' = false ∧ t_sent t' = t_sent t) ∧
  on_first_frame (RecvBytes "spectator") t = close_and_return t.
Proof.
  intros Hr text t'.
  destruct (first_frame_tests bytes t Hr) as (H1 & H2 & H3 & H4 & H5).
  split_and!.
  - intros Hp%prefix_starts_with. by apply H1.
  - intros Hp%prefix_starts_with. by apply H2.
  - intros Hn1%not_starts_with Hn2%not_starts_with Ho%strstr_found_occurs.
    by apply H3.
  - intros Hn1%not_starts_with Hn2%not_starts_with Hn3%not_occurs_in
           Ho%strstr_found_occurs.
    by apply H4.
  - intros Hn1%not_occurs_in Hn2%not_occurs_in. by apply H5.
  - reflexivity.
Qed.

Lemma role_negotiation_witness :
  pc_role (t_pc (on_first_frame (RecvBytes "xwriter start") new_thread)) = Writer ∧
  pc_role (t_pc (on_first_frame (RecvBytes "say reader") new_thread)) = Reader ∧
  t_sent (on_first_frame (RecvBytes "spectator") new_thread) = [] ∧
  t_open (on_first_frame (RecvBytes "spectator") new_thread) = false.
Proof.
  destruct (role_negotiation "xwriter start" new_thread eq_refl)
    as (_ & _ & Hw & _).
  destruct (role_negotiation "say reader" new_thread eq_refl)
    as (_ & _ & _ & Hrd & _).
  destruct (role_negotiation "spectator" new_thread eq_refl)
    as (_ & _ & _ & _ & Hu & _).
  split_and!.
  - apply Hw.
    + intros [rest H]. discriminate H.
    + intros [rest H]. discriminate H.
    + by exists "x", " start".
  - apply Hrd.
    + intros [rest H]. discriminate H.
    + intros [rest H]. discriminate H.
    + intros H%strstr_found_occurs. discriminate H.
    + by exists "say ", EmptyString.
  - apply Hu; intros H%strstr_found_occurs; discriminate H.
  - apply Hu; intros H%strstr_found_occurs; discriminate H.
Defined.

(* ===================================================================== *)
(** ** The writer session *)
(* ===================================================================== *)

Section WriterSession.

Variables (g : shared) (t : thread).

Lemma strcmp0_true (s lit : string) : s = lit → strcmp0 s lit = true.
Proof. intros ->. apply String.eqb_refl. Qed.

Lemma strcmp0_false (s lit : string) : s ≠ lit → strcmp0 s lit = false.
Proof. intros H. by apply String.eqb_neq. Qed.

Lemma length_eqb_false (s : string) :
  s ≠ EmptyString → (String.length s =? 0)%nat = false.
Proof. by destruct s. Qed.

Lemma length_ltb_true (s : string) :
  s ≠ EmptyString → (0 <? String.length s)%nat = true.
Proof. by destruct s. Qed.

(** The loop leaves through [WTeardown] exactly when [recv] fails or the
    command is "exit". *)
Lemma loop_exit (h : bool) (r : recv_result) :
  t_pc t = WLoop h →
  recv r = None ∨ (∃ bytes, recv r = Some bytes ∧ rtrim (cstr bytes) = "exit") →
  thread_step (ERecv r) g t = Some (g, goto (WTeardown h) t).
Proof.
  intros Hpc Hr. unfold thread_step. rewrite Hpc. unfold on_command.
  destruct Hr as [-> | (bytes & -> & Hb)]; [done |].
  by rewrite Hb.
Qed.

Lemma teardown_step (h : bool) (g1 : shared) (t1 : thread) :
  t_pc t1 = WTeardown h →
  thread_step ETau g1 t1
  = Some (if h then set_wrt (S (wrt g1)) g1 else g1, close_and_return t1).
Proof. intros Hpc. unfold thread_step. by rewrite Hpc. Qed.

Lemma done_stuck (e : env) (g1 : shared) (t1 : thread) :
  t_pc t1 = Done → thread_step e g1 t1 = None.
Proof. intros Hpc. unfold thread_step. rewrite Hpc. by destruct e. Qed.

End WriterSession.

(** C2. Auto-release on teardown.  When a writer's command loop ends, by
    an "exit" command, by end of stream or by a receive error, the thread
    goes to its teardown without sending anything; the teardown step can
    always be taken, posts the writer gate exactly once when [has_lock] is
    set (and leaves it alone otherwise), closes the socket, and the thread
    makes no step afterwards. *)
Theorem auto_release_on_teardown
    (g : shared) (t : thread) (has_lock : bool) (r : recv_result) :
  t_pc t = WLoop has_lock →
  recv r = None ∨ (∃ bytes, recv r = Some bytes ∧ rtrim (cstr bytes) = "exit") →
  ∃ t1,
    thread_step (ERecv r) g t = Some (g, t1) ∧
    t_sent t1 = t_sent t ∧ t_open t1 = t_open t ∧
    ∀ g1, ∃ g2 t2,
      thread_step ETau g1 t1 = Some (g2, t2) ∧
      wrt g2 = (if has_lock then 1 else 0) + wrt g1 ∧
      mutex g2 = mutex g1 ∧ reader_count g2 = reader_count g1 ∧ db g2 = db g1 ∧
      t_open t2 = false ∧ t_sent t2 = t_sent t ∧
      ∀ e g3, thread_step e g3 t2 = None.
Proof.
  intros Hpc Hr. exists (goto (WTeardown has_lock) t).
  split; [by apply loop_exit |]. split; [done |]. split; [done |].
  intros g1. eexists _, _. split; [by apply teardown_step |].
  split_and!; by destruct has_lock.
Qed.

Lemma auto_release_on_teardown_witness :
  ∃ t1,
    thread_step (ERecv RecvError) (Shared 0 1 0 []) (Thread (WLoop true) [] true)
    = Some (Shared 0 1 0 [], t1) ∧
    ∃ g2 t2, thread_step ETau (Shared 0 1 0 []) t1 = Some (g2, t2) ∧ wrt g2 = 1.
Proof.
  destruct (auto_release_on_teardown (Shared 0 1 0 []) (Thread (WLoop true) [] true)
              true RecvError eq_refl (or_introl eq_refl))
    as (t1 & Hs & _ & _ & Hrest).
  exists t1. split; [exact Hs |].
  destruct (Hrest (Shared 0 1 0 [])) as (g2 & t2 & Hs2 & Hw & _).
  exists g2, t2. split; [exact Hs2 | exact Hw].
Defined.

(** C3 (what the code does).  A writer that holds the gate and sends
    "start" again goes back to [sem_wait(&wrt)]: after the frames "writer",
    "start", "start" the thread stands at the wait with the semaphore at
    zero and can make no step, whatever the environment does. *)
Theorem start_while_holding_waits_again :
  (∀ t, on_command true (RecvBytes "start") t = goto (WStart true) t) ∧
  ∃ s,
    run [Accept; Run 0 (ERecv (RecvBytes "writer"));
         Run 0 (ERecv (RecvBytes "start")); Run 0 ETau;
         Run 0 (ERecv (RecvBytes "start"))] (init []) = Some s ∧
    pool s = [Thread (WStart true) ["OK: writer session started"] true] ∧
    wrt (sh s) = 0 ∧
    ∀ a, a ≠ Accept → server_step a s = None.
Proof.
  split; [done |]. eexists. split; [reflexivity |].
  split; [reflexivity |]. split; [reflexivity |].
  intros [|[|i] e] Ha; [done | by destruct e | done].
Qed.

(** A first "start" takes the gate when it is free, sets [has_lock] and
    answers "OK: writer session started". *)
Lemma start_acquires (g : shared) (t : thread) (has_lock : bool) (v : nat) :
  t_pc t = WStart has_lock → wrt g = S v →
  thread_step ETau g t
  = Some (set_wrt v g, goto (WLoop true) (send "OK: writer session started" t)).
Proof. intros Hpc Hw. unfold thread_step. by rewrite Hpc, Hw. Qed.

(** C9 (what the code does).  The acknowledgements of "start" and "stop"
    are sent with length 26, one byte short of the 27-byte literals: the
    text arrives whole but the line feed that ends it does not. *)
Theorem session_acks_lack_newline :
  MSG_STARTED = "OK: writer session started" ∧
  MSG_STOPPED = "OK: writer session stopped" ∧
  ends_with_newline MSG_STARTED = false ∧
  ends_with_newline MSG_STOPPED = false ∧
  ∃ s,
    run [Accept; Run 0 (ERecv (RecvBytes "writer"));
         Run 0 (ERecv (RecvBytes "start")); Run 0 ETau;
         Run 0 (ERecv (RecvBytes "stop")); Run 0 ETau] (init []) = Some s ∧
    (t_sent <$> pool s)
    = [["OK: writer session started"; "OK: writer session stopped"]].
Proof. split_and!; try reflexivity. eexists. split; reflexivity. Qed.

Section Commands.

Variables (g : shared) (t : thread).

(** The text of a command frame as the loop compares it. *)
Lemma loop_stop_holding (r : recv_result) (bytes : string) :
  recv r = Some bytes → rtrim (cstr bytes) = "stop" → t_pc t = WLoop true →
  thread_step (ERecv r) g t = Some (g, goto WStop t).
Proof.
  intros Hr Hb Hpc. unfold thread_step. rewrite Hpc. unfold on_command.
  by rewrite Hr, Hb.
Qed.

Lemma loop_stop_idle (r : recv_result) (bytes : string) :
  recv r = Some bytes → rtrim (cstr bytes) = "stop" → t_pc t = WLoop false →
  thread_step (ERecv r) g t = Some (g, send MSG_NO_SESSION t).
Proof.
  intros Hr Hb Hpc. unfold thread_step. rewrite Hpc. unfold on_command.
  rewrite Hr, Hb. cbn. destruct t as [p out o]; simpl in *. by subst p.
Qed.

Lemma loop_message_idle (r : recv_result) (bytes : string) :
  recv r = Some bytes →
  rtrim (cstr bytes) ≠ "" → rtrim (cstr bytes) ≠ "start" →
  rtrim (cstr bytes) ≠ "stop" → rtrim (cstr bytes) ≠ "exit" →
  t_pc t = WLoop false →
  thread_step (ERecv r) g t = Some (g, send MSG_MUST_START t).
Proof.
  intros Hr H0 H1 H2 H3 Hpc. unfold thread_step. rewrite Hpc. unfold on_command.
  rewrite Hr, length_eqb_false, !strcmp0_false by done.
  cbn. destruct t as [p out o]; simpl in *. by subst p.
Qed.

Lemma loop_message_holding (r : recv_result) (bytes : string) :
  recv r = Some bytes →
  rtrim (cstr bytes) ≠ "" → rtrim (cstr bytes) ≠ "start" →
  rtrim (cstr bytes) ≠ "stop" → rtrim (cstr bytes) ≠ "exit" →
  t_pc t = WLoop true →
  thread_step (ERecv r) g t = Some (g, goto (WInsert true (rtrim (cstr bytes))) t).
Proof.
  intros Hr H0 H1 H2 H3 Hpc. unfold thread_step. rewrite Hpc. unfold on_command.
  by rewrite Hr, length_eqb_false, !strcmp0_false by done.
Qed.

Lemma insert_step (h : bool) (msg : string) (ie : insert_env) (t1 : thread) :
  t_pc t1 = WInsert h msg →
  thread_step (EInsert ie) g t1
  = Some (set_db (insert_message_to_db_pool (db g) ie msg).1 g,
          goto (WLoop h) (send (insert_message_to_db_pool (db g) ie msg).2 t1)).
Proof.
  intros Hpc. unfold thread_step. rewrite Hpc.
  destruct (insert_message_to_db_pool (db g) ie msg) as [db' res].
  by rewrite send_all.
Qed.

(** The result of an insertion is an "OK: " or an "ERROR: " text. *)
Lemma insert_result_prefix (d : list doc) (ie : insert_env) (msg : string) :
  String.prefix "OK: " (insert_message_to_db_pool d ie msg).2 = true ∨
  String.prefix "ERROR: " (insert_message_to_db_pool d ie msg).2 = true.
Proof.
  destruct ie as [[] now [err|]]; cbn; auto.
Qed.

Lemma insert_ok (d : list doc) (ie : insert_env) (msg : string) :
  ins_status ie = DbReady → ins_error ie = None →
  insert_message_to_db_pool d ie msg
  = (d ++ [Doc (Some msg) (Some (wrap_signed 64 (ins_now ie * 1000)))],
     line "OK: message stored").
Proof.
  destruct ie as [st now err]; simpl. intros -> ->. reflexivity.
Qed.

(** A failed insertion leaves the collection as it was. *)
Lemma insert_failed (d : list doc) (ie : insert_env) (msg : string) :
  ins_status ie ≠ DbReady ∨ ins_error ie ≠ None →
  (insert_message_to_db_pool d ie msg).1 = d.
Proof.
  destruct ie as [[] now [err|]]; cbn; intros [H|H]; done.
Qed.

Lemma first_frame_payload (r : recv_result) (bytes p : string) :
  recv r = Some bytes →
  mode_of (rtrim (cstr bytes)) = Writer →
  p_after (rtrim (cstr bytes)) = Some p → p ≠ "" →
  on_first_frame r t =
    if strcmp0 p "start" then goto (WStart false) t
    else if strcmp0 p "stop" then goto (WLoop false) (send MSG_STOPPED t)
    else goto (WLoop false) (send MSG_START_FIRST t).
Proof.
  intros Hr Hm Hp Hne. unfold on_first_frame.
  by rewrite Hr, Hm, Hp, length_ltb_true.
Qed.

Lemma recv_bound (r : recv_result) (bytes : string) :
  recv r = Some bytes → String.length bytes ≤ BUFFER_SIZE - 1 ∧ bytes ≠ "".
Proof.
  destruct r as [b|]; [|done]. unfold recv.
  remember (stake (BUFFER_SIZE - 1) b) as s eqn:Hs.
  destruct s as [|c s]; [done |]. cbn [is_empty].
  intros H. injection H as <-. split; [|done].
  rewrite Hs, stake_length. apply Nat.le_min_l.
Qed.

(** The payload of the role frame is itself a well-formed command frame:
    receiving it again and trimming it gives the same text. *)
Lemma payload_as_command (r : recv_result) (bytes p : string) :
  recv r = Some bytes →
  p_after (rtrim (cstr bytes)) = Some p → p ≠ "" →
  recv (RecvBytes p) = Some p ∧ rtrim (cstr p) = p.
Proof.
  intros [Hlen _]%recv_bound Hp Hne. unfold p_after in Hp.
  destruct (6 <? _)%nat; [|done].
  set (q := skip_blank (sdrop 6 (rtrim (cstr bytes)))) in *.
  assert (Hq : none_of (Ascii.eqb NUL) q = true).
  { apply skip_blank_none_of, sdrop_none_of, rtrim_none_of, cstr_none_of_nul. }
  assert (Hql : String.length q ≤ BUFFER_SIZE - 1).
  { unfold q. pose proof (skip_blank_length (sdrop 6 (rtrim (cstr bytes)))).
    rewrite sdrop_length in H.
    pose proof (rtrim_length (cstr bytes)). pose proof (cstr_length bytes). lia. }
  destruct (is_empty q) eqn:Eq.
  { destruct q; [|done]. by injection Hp as <-. }
  injection Hp as <-.
  split.
  - unfold recv. rewrite stake_small.
    + by destruct (rtrim q).
    + pose proof (rtrim_length q). lia.
  - rewrite cstr_no_nul by by apply rtrim_none_of.
    apply rtrim_idem.
Qed.

(** The outcome of a loop iteration does not depend on where the thread
    was. *)
Lemma on_command_goto (h : bool) (r : recv_result) (q : pc) :
  on_command h r (goto q t) = on_command h r t.
Proof.
  unfold on_command. destruct (recv r) as [bytes|]; [|done].
  repeat case_match; done.
Qed.

End Commands.

(** C4, counterexample.  "stop" as the payload of the role frame arrives
    while the connection does not hold the gate, and is answered
    "OK: writer session stopped", not with the error. *)
Lemma stop_in_role_frame_replies_ok :
  ∃ s,
    run [Accept; Run 0 (ERecv (RecvBytes "writer stop"))] (init []) = Some s ∧
    pool s = [Thread (WLoop false) ["OK: writer session stopped"] true] ∧
    wrt (sh s) = 1 ∧
    rtrim <$> (pool s ≫= t_sent) ≠ ["ERROR: no active writer session"].
Proof. eexists. split_and!; [reflexivity | reflexivity | reflexivity | done]. Qed.

(** C4, amended.  A "stop" received in the command loop: with [has_lock]
    set, [has_lock] is cleared, the gate is posted and the reply is
    "OK: writer session stopped"; with [has_lock] clear, the reply is the
    line "ERROR: no active writer session" and nothing else changes.  A
    "stop" that is the payload of the role frame (the connection never
    holds the gate then) is answered "OK: writer session stopped" and
    changes nothing else. *)
Theorem stop_command (g : shared) (t : thread) (r : recv_result) (bytes : string) :
  recv r = Some bytes →
  (rtrim (cstr bytes) = "stop" →
     (t_pc t = WLoop true →
        thread_step (ERecv r) g t = Some (g, goto WStop t) ∧
        ∀ g1, thread_step ETau g1 (goto WStop t)
              = Some (set_wrt (S (wrt g1)) g1,
                      goto (WLoop false) (send "OK: writer session stopped" t))) ∧
     (t_pc t = WLoop false →
        thread_step (ERecv r) g t
        = Some (g, send (line "ERROR: no active writer session") t))) ∧
  (t_pc t = AwaitRole →
   mode_of (rtrim (cstr bytes)) = Writer →
   p_after (rtrim (cstr bytes)) = Some "stop" →
   thread_step (ERecv r) g t
   = Some (g, goto (WLoop false) (send "OK: writer session stopped" t))).
Proof.
  intros Hr. split; [intros Hb; split |].
  - intros Hpc. split; [by eapply loop_stop_holding | done].
  - intros Hpc. by eapply loop_stop_idle.
  - intros Hpc Hm Hp. unfold thread_step. rewrite Hpc.
    by rewrite (first_frame_payload t r bytes "stop").
Qed.

Lemma stop_command_witness :
  thread_step (ERecv (RecvBytes "stop")) (Shared 1 1 0 []) (Thread (WLoop false) [] true)
  = Some (Shared 1 1 0 [],
          Thread (WLoop false) [line "ERROR: no active writer session"] true) ∧
  thread_step (ERecv (RecvBytes "writer stop")) (Shared 1 1 0 []) new_thread
  = Some (Shared 1 1 0 [], Thread (WLoop false) ["OK: writer session stopped"] true).
Proof.
  split.
  - exact (proj2 (proj1 (stop_command (Shared 1 1 0 []) (Thread (WLoop false) [] true)
                           (RecvBytes "stop") "stop" eq_refl) eq_refl) eq_refl).
  - exact (proj2 (stop_command (Shared 1 1 0 []) new_thread
                    (RecvBytes "writer stop") "writer stop" eq_refl)
                 eq_refl eq_refl eq_refl).
Defined.

(** C5, counterexample.  A message sent without a session is rejected, but
    not with the text "ERROR: you must start writing first": in the command
    loop the reply is the line "ERROR: You must start writing first", and
    for the payload of the role frame it is "ERROR: start writing first". *)
Lemma rejection_text_differs :
  ∃ s1 s2,
    run [Accept; Run 0 (ERecv (RecvBytes "writer"));
         Run 0 (ERecv (RecvBytes "hello"))] (init []) = Some s1 ∧
    pool s1 = [Thread (WLoop false) [line "ERROR: You must start writing first"] true] ∧
    run [Accept; Run 0 (ERecv (RecvBytes "writer hello"))] (init []) = Some s2 ∧
    pool s2 = [Thread (WLoop false) [line "ERROR: start writing first"] true] ∧
    rtrim <$> (pool s1 ≫= t_sent) ≠ ["ERROR: you must start writing first"] ∧
    rtrim <$> (pool s2 ≫= t_sent) ≠ ["ERROR: you must start writing first"].
Proof.
  eexists _, _. split_and!; [reflexivity | reflexivity | reflexivity | reflexivity | done | done].
Qed.

(** C5, amended.  A non-empty command other than "start", "stop" and
    "exit": received in the loop without the lock it is answered with the
    line "ERROR: You must start writing first" and nothing else changes (the
    store is not called); received with the lock held,
    [insert_message_to_db_pool] is called with the text and its result,
    which starts with "OK: " or "ERROR: ", is sent in full, a successful
    call adding the text to the collection and a failed one leaving the
    collection alone, the lock staying held either way.  A payload of the
    role frame other than "start" and "stop" is answered with the line
    "ERROR: start writing first" and changes nothing. *)
Theorem append_requires_session
    (g : shared) (t : thread) (r : recv_result) (bytes : string) :
  recv r = Some bytes →
  let buf := rtrim (cstr bytes) in
  (buf ≠ "" → buf ≠ "start" → buf ≠ "stop" → buf ≠ "exit" →
     (t_pc t = WLoop false →
        thread_step (ERecv r) g t
        = Some (g, send (line "ERROR: You must start writing first") t)) ∧
     (t_pc t = WLoop true →
        thread_step (ERecv r) g t = Some (g, goto (WInsert true buf) t) ∧
        ∀ g1 ie,
          let res := insert_message_to_db_pool (db g1) ie buf in
          thread_step (EInsert ie) g1 (goto (WInsert true buf) t)
          = Some (set_db res.1 g1, goto (WLoop true) (send res.2 t)) ∧
          (String.prefix "OK: " res.2 = true ∨ String.prefix "ERROR: " res.2 = true) ∧
          (ins_status ie = DbReady → ins_error ie = None →
           res = (db g1 ++ [Doc (Some buf) (Some (wrap_signed 64 (ins_now ie * 1000)))],
                  line "OK: message stored")) ∧
          (ins_status ie ≠ DbReady ∨ ins_error ie ≠ None → res.1 = db g1))) ∧
  (∀ p, t_pc t = AwaitRole → mode_of buf = Writer → p_after buf = Some p →
        p ≠ "" → p ≠ "start" → p ≠ "stop" →
        thread_step (ERecv r) g t
        = Some (g, goto (WLoop false) (send (line "ERROR: start writing first") t))).
Proof.
  intros Hr buf. split.
  - intros H0 H1 H2 H3. split.
    + intros Hpc. by eapply loop_message_idle.
    + intros Hpc. split; [by eapply loop_message_holding |].
      intros g1 ie res. split_and!.
      * by rewrite (insert_step g1 true buf ie).
      * apply insert_result_prefix.
      * apply insert_ok.
      * apply insert_failed.
  - intros p Hpc Hm Hp H0 H1 H2. unfold thread_step. rewrite Hpc.
    rewrite (first_frame_payload t r bytes p) by done.
    by rewrite !strcmp0_false by done.
Qed.

Lemma append_requires_session_witness :
  thread_step (ERecv (RecvBytes "hello")) (Shared 1 1 0 []) (Thread (WLoop false) [] true)
  = Some (Shared 1 1 0 [],
          Thread (WLoop false) [line "ERROR: You must start writing first"] true) ∧
  thread_step (ERecv (RecvBytes "writer hello")) (Shared 1 1 0 []) new_thread
  = Some (Shared 1 1 0 [], Thread (WLoop false) [line "ERROR: start writing first"] true).
Proof.
  pose proof (append_requires_session (Shared 1 1 0 []) (Thread (WLoop false) [] true)
                (RecvBytes "hello") "hello" eq_refl) as [H1 _].
  pose proof (append_requires_session (Shared 1 1 0 []) new_thread
                (RecvBytes "writer hello") "writer hello" eq_refl) as [_ H2].
  split.
  - apply H1; done.
  - apply (H2 "hello"); done.
Defined.

(** C6, counterexample.  The payload of the role frame is not handled as
    the same text is in the loop: "stop" is answered
    "OK: writer session stopped" instead of the error line, a message is
    rejected with another text, and "exit" is rejected as a message and
    leaves the connection in the loop instead of ending it. *)
Lemma payload_differs_from_loop :
  let idle := Thread (WLoop false) [] true in
  on_first_frame (RecvBytes "writer stop") new_thread
    = Thread (WLoop false) ["OK: writer session stopped"] true ∧
  on_command false (RecvBytes "stop") idle
    = Thread (WLoop false) [line "ERROR: no active writer session"] true ∧
  on_first_frame (RecvBytes "writer hello") new_thread
    = Thread (WLoop false) [line "ERROR: start writing first"] true ∧
  on_command false (RecvBytes "hello") idle
    = Thread (WLoop false) [line "ERROR: You must start writing first"] true ∧
  on_first_frame (RecvBytes "writer exit") new_thread
    = Thread (WLoop false) [line "ERROR: start writing first"] true ∧
  on_command false (RecvBytes "exit") idle = Thread (WTeardown false) [] true.
Proof. split_and!; reflexivity. Qed.

(** C6, amended.  The payload [p] that follows the role token in the
    first frame of a writer is handled before the loop starts, with
    [has_lock] clear.  For "start" this is exactly what the loop does with
    "start": the thread goes to wait for the gate.  For every other payload
    except "exit" the control state afterwards is the one the loop reaches
    on the same text (back at [recv] without the lock, shared state
    untouched), but the reply differs: "stop" is answered
    "OK: writer session stopped" where the loop sends the line
    "ERROR: no active writer session", and any other text is answered with
    the line "ERROR: start writing first" where the loop sends the line
    "ERROR: You must start writing first". *)
Theorem role_frame_payload
    (g : shared) (t : thread) (r : recv_result) (bytes p : string) :
  recv r = Some bytes →
  mode_of (rtrim (cstr bytes)) = Writer →
  p_after (rtrim (cstr bytes)) = Some p → p ≠ "" →
  t_pc t = AwaitRole →
  let t1 := on_first_frame r t in
  let t2 := on_command false (RecvBytes p) t in
  thread_step (ERecv r) g t = Some (g, t1) ∧
  thread_step (ERecv (RecvBytes p)) g (goto (WLoop false) t) = Some (g, t2) ∧
  (p = "start" → t1 = t2 ∧ t1 = goto (WStart false) t) ∧
  (p ≠ "exit" → t_pc t1 = t_pc t2) ∧
  (p = "stop" →
     t_sent t1 = t_sent t ++ ["OK: writer session stopped"] ∧
     t_sent t2 = t_sent t ++ [line "ERROR: no active writer session"]) ∧
  (p ≠ "start" → p ≠ "stop" →
     t_sent t1 = t_sent t ++ [line "ERROR: start writing first"]) ∧
  (p ≠ "start" → p ≠ "stop" → p ≠ "exit" →
     t_sent t2 = t_sent t ++ [line "ERROR: You must start writing first"]).
Proof.
  intros Hr Hm Hp Hne Hpc t1 t2.
  destruct (payload_as_command r bytes p Hr Hp Hne) as [Hrp Hcp].
  assert (E1 : t1 =
    if strcmp0 p "start" then goto (WStart false) t
    else if strcmp0 p "stop" then goto (WLoop false) (send MSG_STOPPED t)
    else goto (WLoop false) (send MSG_START_FIRST t))
    by (by eapply first_frame_payload).
  assert (E2 : t2 =
    if strcmp0 p "start" then goto (WStart false) t
    else if strcmp0 p "stop" then goto (WLoop false) (send MSG_NO_SESSION t)
    else if strcmp0 p "exit" then goto (WTeardown false) t
    else goto (WLoop false) (send MSG_MUST_START t)).
  { subst t2. unfold on_command. by rewrite Hrp, Hcp, length_eqb_false. }
  split; [by unfold thread_step; rewrite Hpc |].
  split; [by unfold thread_step; cbn [t_pc goto]; rewrite on_command_goto |].
  rewrite E1, E2. split_and!.
  - intros ->. by cbn.
  - intros Hx. rewrite (strcmp0_false p "exit") by done.
    destruct (strcmp0 p "start"); [done |]. by destruct (strcmp0 p "stop").
  - intros ->. by cbn.
  - intros H1 H2. by rewrite !strcmp0_false by done.
  - intros H1 H2 H3. by rewrite !strcmp0_false by done.
Qed.

Lemma role_frame_payload_witness :
  on_first_frame (RecvBytes "writer start") new_thread
  = on_command false (RecvBytes "start") new_thread.
Proof.
  exact (proj1 (proj1 (proj2 (proj2
    (role_frame_payload (Shared 1 1 0 []) new_thread (RecvBytes "writer start")
       "writer start" "start" eq_refl eq_refl eq_refl
       ltac:(discriminate) eq_refl))) eq_refl)).
Defined.

(* ===================================================================== *)
(** ** The reader reply *)
(* ===================================================================== *)

Section ReaderReply.

Variable strftime_local : Z → string.

Lemma prefix_stake (n : nat) (s : string) : String.prefix (stake n s) s = true.
Proof.
  revert s; induction n as [|n IH]; intros [|c s]; simpl; try done.
  destruct (ascii_dec c c); [apply IH | done].
Qed.

(** Cutting twice at the same place. *)
Lemma stake_stake_append (k : nat) (l rest : string) :
  stake k (stake k l +:+ rest) = stake k (l +:+ rest).
Proof.
  rewrite !stake_append, stake_stake, Nat.min_id, stake_length.
  f_equal. f_equal. lia.
Qed.

(** The loop of [strncat] calls computes the first [cap] characters of the
    concatenation, and its buffer never exceeds [cap] characters. *)
Lemma strncat_loop (f : doc → string) (size : nat) (cursor : list doc) (buffer : string) :
  String.length buffer ≤ size - 1 →
  foldl (λ b d, strncat b (f d) (size - String.length b - 1)) buffer cursor
  = stake (size - 1) (buffer +:+ concat_lines (f <$> cursor)).
Proof.
  revert buffer; induction cursor as [|d cursor IH]; intros buffer Hlen.
  - cbn. by rewrite append_empty_r, stake_small.
  - cbn [foldl fmap list_fmap concat_lines foldr].
    rewrite IH.
    + unfold strncat. fold (concat_lines (f <$> cursor)).
      rewrite append_assoc, !(stake_append _ buffer).
      f_equal.
      replace (size - String.length buffer - 1) with (size - 1 - String.length buffer) by lia.
      apply stake_stake_append.
    + unfold strncat. rewrite append_length, stake_length. lia.
Qed.

Lemma fetch_ready (cursor : list doc) (size : nat) :
  fetch_messages_from_db_pool strftime_local DbReady cursor size
  = stake (size - 1) (concat_lines (format_line strftime_local <$> cursor)).
Proof.
  unfold fetch_messages_from_db_pool. rewrite strncat_loop; [done |].
  simpl. lia.
Qed.

Lemma fetch_length (st : db_status) (cursor : list doc) (size : nat) :
  String.length (fetch_messages_from_db_pool strftime_local st cursor size) ≤ size - 1.
Proof.
  destruct st; [rewrite fetch_ready | ..];
    unfold fetch_messages_from_db_pool, strncpy_z;
    rewrite stake_length; apply Nat.le_min_l.
Qed.

Lemma fetch_step (g : shared) (t : thread) (st : db_status) :
  t_pc t = RFetch →
  thread_step (EFetch st strftime_local) g t
  = Some (g, goto RLock2
               (send (fetch_messages_from_db_pool strftime_local st
                        (find_sorted (db g)) OUT_SIZE) t)).
Proof. intros Hpc. unfold thread_step. by rewrite Hpc, send_all. Qed.

(** A message that fits is formatted as the spec prescribes. *)
Lemma format_line_fits (m : message) :
  fits_line strftime_local m →
  format_line strftime_local (doc_of m) = spec_line strftime_local m.
Proof.
  intros [Hc Hl]. unfold format_line, snprintf. cbn [doc_of d_message d_timestamp].
  rewrite Hc. by apply stake_small.
Qed.

Lemma format_lines_fit (msgs : list message) :
  Forall (fits_line strftime_local) msgs →
  format_line strftime_local <$> (doc_of <$> msgs) = spec_line strftime_local <$> msgs.
Proof.
  induction 1 as [|m msgs Hm _ IH]; [done |].
  rewrite !fmap_cons, IH. by rewrite format_line_fits.
Qed.

End ReaderReply.

Section Sorting.

Lemma key_le_total (a b : option Z) : key_le a b = false → key_le b a = true.
Proof. destruct a, b; simpl; try done. intros H%Z.leb_gt. apply Z.leb_le. lia. Qed.

Lemma insert_by_timestamp_perm (d : doc) (l : list doc) :
  insert_by_timestamp d l ≡ₚ d :: l.
Proof.
  induction l as [|x l IH]; [done |]. simpl.
  destruct (key_le _ _); [done |]. by rewrite IH, Permutation_swap.
Qed.

Lemma find_sorted_perm (d : list doc) : find_sorted d ≡ₚ d.
Proof.
  induction d as [|x d IH]; [done |].
  cbn. fold (find_sorted d). by rewrite insert_by_timestamp_perm, IH.
Qed.

Lemma insert_by_timestamp_hd (d x : doc) (l : list doc) :
  ts_le x d → HdRel ts_le x l → HdRel ts_le x (insert_by_timestamp d l).
Proof.
  intros Hxd Hl. destruct l as [|y l]; simpl.
  - by constructor.
  - destruct (key_le _ _); constructor; [done |]. by inversion Hl.
Qed.

Lemma insert_by_timestamp_sorted (d : doc) (l : list doc) :
  Sorted ts_le l → Sorted ts_le (insert_by_timestamp d l).
Proof.
  induction 1 as [|x l Hs IH Hhd]; simpl.
  - by repeat constructor.
  - destruct (key_le (d_timestamp d) (d_timestamp x)) eqn:E.
    + constructor; [by constructor | by constructor].
    + constructor; [done |].
      apply insert_by_timestamp_hd; [|done]. by apply key_le_total.
Qed.

Lemma find_sorted_sorted (d : list doc) : Sorted ts_le (find_sorted d).
Proof.
  induction d as [|x d IH]; [constructor |].
  cbn. by apply insert_by_timestamp_sorted.
Qed.

End Sorting.

Section ReaderPath.

(** Every step of a reader moves it to the next control point of the
    sequence entry section, fetch and send, exit section; only the step at
    [RFetch] sends, only the last one closes, and no step writes to the
    collection. *)
Lemma reader_step (e : env) (g g' : shared) (t t' : thread) :
  pc_role (t_pc t) = Reader →
  thread_step e g t = Some (g', t') →
  t_pc t' = reader_next (t_pc t) ∧
  (t_pc t ≠ RFetch → t_sent t' = t_sent t) ∧
  (t_pc t = RFetch → ∃ frame, t_sent t' = t_sent t ++ [frame]) ∧
  t_open t' = (if decide (t_pc t = RUnlock2) then false else t_open t) ∧
  db g' = db g.
Proof.
  intros Hrole Hstep. unfold thread_step in Hstep.
  destruct (t_pc t) eqn:Hpc; try discriminate Hrole;
    destruct e; try discriminate Hstep.
  all: try (destruct (mutex g); [discriminate Hstep |]).
  all: try (destruct (reader_count g =? 1)%Z; [destruct (wrt g); [discriminate Hstep |] |]).
  all: injection Hstep as <- <-.
  all: split_and!; try reflexivity; try congruence; eauto.
  all: by destruct (reader_count g =? 0)%Z.
Qed.

End ReaderPath.

Section ReaderFlow.

Lemma concat_lines_app (l1 l2 : list string) :
  concat_lines (l1 ++ l2) = concat_lines l1 +:+ concat_lines l2.
Proof.
  induction l1 as [|x l1 IH]; [done |].
  cbn [app concat_lines foldr]. fold (concat_lines (l1 ++ l2)) (concat_lines l1).
  by rewrite IH, append_assoc.
Qed.

(** Once the first [k] lines fill the buffer the later ones do not
    matter. *)
Lemma stake_full_prefix (n k : nat) (lines : list string) :
  n ≤ String.length (concat_lines (take k lines)) →
  stake n (concat_lines lines) = stake n (concat_lines (take k lines)).
Proof.
  intros Hfull. rewrite <- (take_drop k lines) at 1.
  rewrite concat_lines_app, stake_append.
  replace (n - _) with 0 by lia.
  destruct (concat_lines (drop k lines)); by rewrite append_empty_r.
Qed.

(** A reader that finds the lock free runs to the end: nine steps, one
    send, the socket closed, the lock as it found it. *)
Lemma lone_reader_run (strftime_local : Z → string) (st : db_status)
    (g : shared) (sent : list string) :
  wrt g = 1 → mutex g = 1 → reader_count g = 0%Z →
  thread_run [ETau; ETau; ETau; ETau; EFetch st strftime_local; ETau; ETau; ETau; ETau]
             g (Thread RLock1 sent true)
  = Some (g, Thread Done
               (sent ++ [fetch_messages_from_db_pool strftime_local st
                           (find_sorted (db g)) OUT_SIZE]) false).
Proof.
  destruct g as [w m rc d]. cbn [wrt mutex reader_count]. intros -> -> ->.
  cbn [thread_run thread_step t_pc mbind option_bind goto send set_mutex
       set_reader_count set_wrt wrt mutex reader_count db t_sent t_open
       close_and_return].
  change (wrap_signed 32 (0 + 1)) with 1%Z. cbn [Z.eqb Pos.eqb].
  cbn [thread_run thread_step t_pc mbind option_bind goto send set_mutex
       set_reader_count set_wrt wrt mutex reader_count db t_sent t_open
       close_and_return].
  change (wrap_signed 32 (1 - 1)) with 0%Z. cbn [Z.eqb].
  cbn [thread_run thread_step t_pc mbind option_bind goto send set_mutex
       set_reader_count set_wrt wrt mutex reader_count db t_sent t_open
       close_and_return].
  by rewrite send_all.
Qed.

End ReaderFlow.

(** C10. Bounded reader reply.  The reply is built in the 32768-byte
    buffer [out] by bounded concatenation: whatever the collection holds
    and however the database answers, the frame sent to the reader has at
    most 32767 bytes, and when the database is available it is the first
    32767 bytes of the concatenation of the lines
    [fetch_messages_from_db_pool] formats (each through its 1024-byte line
    buffer), hence a prefix of that concatenation; once some first lines
    fill the buffer, the remaining lines leave no trace in the frame. *)
Theorem reader_reply_bounded
    (strftime_local : Z → string) (g : shared) (t : thread) (st : db_status) :
  t_pc t = RFetch →
  ∃ frame,
    thread_step (EFetch st strftime_local) g t = Some (g, goto RLock2 (send frame t)) ∧
    Z.of_nat OUT_SIZE = 32768%Z ∧
    (Z.of_nat (String.length frame) ≤ 32767)%Z ∧
    (st = DbReady →
     let lines := format_line strftime_local <$> find_sorted (db g) in
     frame = stake (OUT_SIZE - 1) (concat_lines lines) ∧
     String.prefix frame (concat_lines lines) = true ∧
     ∀ k, OUT_SIZE - 1 ≤ String.length (concat_lines (take k lines)) →
          frame = stake (OUT_SIZE - 1) (concat_lines (take k lines))).
Proof.
  intros Hpc. eexists. split; [by apply fetch_step |].
  split; [reflexivity |]. split.
  - pose proof (fetch_length strftime_local st (find_sorted (db g)) OUT_SIZE) as H.
    assert (Z.of_nat (OUT_SIZE - 1) = 32767%Z) by reflexivity. lia.
  - intros -> lines. rewrite fetch_ready. fold lines. split_and!.
    + done.
    + apply prefix_stake.
    + intros k Hk. by apply stake_full_prefix.
Qed.

Lemma reader_reply_bounded_witness :
  ∃ frame,
    thread_step (EFetch DbReady (λ _, "1970-01-01 00:00:00"))
                (Shared 0 1 1 [Doc (Some "hello") (Some 0%Z)])
                (Thread RFetch [] true)
    = Some (Shared 0 1 1 [Doc (Some "hello") (Some 0%Z)],
            Thread RLock2 [frame] true) ∧
    frame = line "[1970-01-01 00:00:00] hello".
Proof.
  destruct (reader_reply_bounded (λ _, "1970-01-01 00:00:00")
              (Shared 0 1 1 [Doc (Some "hello") (Some 0%Z)])
              (Thread RFetch [] true) DbReady eq_refl)
    as (frame & Hstep & _ & _ & Hready).
  exists frame. split; [exact Hstep |].
  destruct (Hready eq_refl) as [-> _]. reflexivity.
Defined.

(** C8, counterexample.  With forty stored messages of a thousand
    characters the reader gets one frame of 32767 bytes holding thirty-two
    lines, not one line per stored message. *)
Lemma long_log_reply_is_cut :
  let strftime_local := λ _ : Z, "1970-01-01 00:00:00" in
  let msgs := replicate 40 (Message (string_of 1000 "a") 0) in
  Forall (fits_line strftime_local) msgs ∧
  match thread_run [ETau; ETau; ETau; ETau; EFetch DbReady strftime_local;
                    ETau; ETau; ETau; ETau]
                   (Shared 1 1 0 (doc_of <$> msgs)) (Thread RLock1 [] true) with
  | Some (g, t) =>
      t_pc t = Done ∧
      count_newlines <$> t_sent t = [32] ∧
      length (db g) = 40 ∧
      t_sent t ≠ [concat_lines (spec_line strftime_local <$> msgs)]
  | None => False
  end.
Proof.
  intros strftime_local msgs. split.
  - apply Forall_replicate. split; [by vm_compute |].
    apply Nat.leb_le. by vm_compute.
  - rewrite lone_reader_run by reflexivity. cbn [t_pc t_sent db].
    assert (Hn : count_newlines
                   (fetch_messages_from_db_pool strftime_local DbReady
                      (find_sorted (doc_of <$> msgs)) OUT_SIZE) = 32)
      by (vm_compute; reflexivity).
    assert (Hm : count_newlines (concat_lines (spec_line strftime_local <$> msgs)) = 40)
      by (vm_compute; reflexivity).
    split_and!; [done | | by vm_compute |].
    + change ([] ++ [?x]) with [x]. by rewrite list_fmap_singleton, Hn.
    + change ([] ++ [?x]) with [x]. intros Heq.
      apply (f_equal (fmap count_newlines)) in Heq.
      rewrite !list_fmap_singleton, Hn, Hm in Heq. discriminate Heq.
Qed.

(** C8, amended.  A reader connection goes through its entry section
    (acquireRead), then fetches and sends, then goes through its exit
    section (releaseRead) and closes the socket: every step moves it one
    control point along that sequence, the only send is the one after the
    fetch, and a reader that finds the lock free completes all nine steps
    with exactly one frame sent.  The cursor yields every stored message
    once, ascending by timestamp.  When the database is available, every
    message's line "[<formatted timestamp>] <text>" (newline-terminated)
    fits the 1024-byte line buffer and the lines together fit the
    32768-byte reply buffer, the frame is exactly these lines in cursor
    order. *)
Theorem reader_reply
    (strftime_local : Z → string) (g : shared) (t : thread) (msgs : list message) :
  (∀ e g1 g2 t1 t2,
     pc_role (t_pc t1) = Reader → thread_step e g1 t1 = Some (g2, t2) →
     t_pc t2 = reader_next (t_pc t1) ∧
     (t_pc t1 ≠ RFetch → t_sent t2 = t_sent t1) ∧
     (t_pc t1 = RFetch → ∃ frame, t_sent t2 = t_sent t1 ++ [frame]) ∧
     t_open t2 = (if decide (t_pc t1 = RUnlock2) then false else t_open t1) ∧
     db g2 = db g1) ∧
  (∀ st sent,
     wrt g = 1 → mutex g = 1 → reader_count g = 0%Z →
     thread_run [ETau; ETau; ETau; ETau; EFetch st strftime_local;
                 ETau; ETau; ETau; ETau] g (Thread RLock1 sent true)
     = Some (g, Thread Done
                  (sent ++ [fetch_messages_from_db_pool strftime_local st
                              (find_sorted (db g)) OUT_SIZE]) false)) ∧
  find_sorted (db g) ≡ₚ db g ∧
  Sorted ts_le (find_sorted (db g)) ∧
  (t_pc t = RFetch →
   find_sorted (db g) = doc_of <$> msgs →
   Forall (fits_line strftime_local) msgs →
   String.length (concat_lines (spec_line strftime_local <$> msgs)) ≤ OUT_SIZE - 1 →
   thread_step (EFetch DbReady strftime_local) g t
   = Some (g, goto RLock2
                (send (concat_lines (spec_line strftime_local <$> msgs)) t))).
Proof.
  split_and!.
  - intros e g1 g2 t1 t2. apply reader_step.
  - intros st sent. apply lone_reader_run.
  - apply find_sorted_perm.
  - apply find_sorted_sorted.
  - intros Hpc Hcur Hfit Hlen.
    rewrite fetch_step, fetch_ready, Hcur, format_lines_fit by done.
    by rewrite stake_small.
Qed.

Lemma reader_reply_witness :
  thread_step (EFetch DbReady (λ _, "1970-01-01 00:00:00"))
              (Shared 0 1 1 [Doc (Some "later") (Some 5000%Z); Doc (Some "hello") (Some 0%Z)])
              (Thread RFetch [] true)
  = Some (Shared 0 1 1 [Doc (Some "later") (Some 5000%Z); Doc (Some "hello") (Some 0%Z)],
          Thread RLock2
            [line "[1970-01-01 00:00:00] hello" +:+ line "[1970-01-01 00:00:00] later"]
            true).
Proof.
  refine (proj2 (proj2 (proj2 (proj2
    (reader_reply (λ _, "1970-01-01 00:00:00")
       (Shared 0 1 1 [Doc (Some "later") (Some 5000%Z); Doc (Some "hello") (Some 0%Z)])
       (Thread RFetch [] true) [Message "hello" 0; Message "later" 5000]))))
    eq_refl eq_refl _ _).
  - repeat constructor; apply Nat.leb_le; vm_compute; reflexivity.
  - apply Nat.leb_le. vm_compute. reflexivity.
Defined.

(* ===================================================================== *)
(** ** The lock *)
(* ===================================================================== *)

Section Totals.

Implicit Types (f h : pc → nat) (l : list thread).

Lemma total_lookup f l i t :
  l !! i = Some t → total f l = others f i l + f (t_pc t).
Proof.
  intros Hi. rewrite <- (take_drop_middle l i t Hi) at 1.
  unfold others, total. rewrite sum_list_with_app. simpl. lia.
Qed.

Lemma total_insert f l i t t' :
  l !! i = Some t → total f (<[i:=t']> l) = others f i l + f (t_pc t').
Proof.
  intros Hi. rewrite insert_take_drop by by eapply lookup_lt_Some.
  unfold others, total. rewrite sum_list_with_app. simpl. lia.
Qed.

Lemma total_snoc f l t : total f (l ++ [t]) = total f l + f (t_pc t).
Proof. unfold total. rewrite sum_list_with_app. simpl. lia. Qed.

Lemma total_mono f h l : (∀ p, f p ≤ h p) → total f l ≤ total h l.
Proof.
  intros Hle. unfold total. induction l as [|t l IH]; simpl; [done |].
  specialize (Hle (t_pc t)). lia.
Qed.

Lemma others_mono f h i l : (∀ p, f p ≤ h p) → others f i l ≤ others h i l.
Proof.
  intros Hle. unfold others.
  pose proof (total_mono f h (take i l) Hle).
  pose proof (total_mono f h (drop (S i) l) Hle). lia.
Qed.

Lemma total_le_length f l : (∀ p, f p ≤ 1) → total f l ≤ length l.
Proof.
  intros Hle. unfold total. induction l as [|t l IH]; simpl; [done |].
  specialize (Hle (t_pc t)). lia.
Qed.

Lemma total_ge f l i t : l !! i = Some t → f (t_pc t) ≤ total f l.
Proof. intros Hi. rewrite (total_lookup f l i t Hi). lia. Qed.

(** A measure whose total is at most one singles out one thread. *)
Lemma total_unique f l i j ti tj :
  total f l ≤ 1 →
  l !! i = Some ti → l !! j = Some tj →
  f (t_pc ti) = 1 → f (t_pc tj) = 1 → i = j.
Proof.
  unfold total. revert i j. induction l as [|t l IH]; intros i j Hle Hi Hj Hfi Hfj.
  - done.
  - destruct i as [|i], j as [|j]; simpl in *; simplify_eq.
    + done.
    + pose proof (total_ge f l j tj Hj). unfold total in *. lia.
    + pose proof (total_ge f l i ti Hi). unfold total in *. lia.
    + f_equal. eapply IH; eauto. lia.
Qed.

Lemma total_pos f l :
  0 < total f l → ∃ i t, l !! i = Some t ∧ 0 < f (t_pc t).
Proof.
  unfold total. induction l as [|t l IH]; simpl; [lia |]. intros Hpos.
  destruct (decide (0 < f (t_pc t))) as [Ht|Ht].
  - by exists 0, t.
  - destruct IH as (i & u & Hi & Hu); [lia |]. by exists (S i), u.
Qed.

Lemma gate_owed_le_mutex rc p : gate_owed rc p ≤ mutex_held p.
Proof. destruct p; simpl; try lia. destruct (rc =? 1)%Z; lia. Qed.

Lemma gate_kept_le_mutex rc p : gate_kept rc p ≤ mutex_held p.
Proof. destruct p; simpl; try lia. destruct (rc =? 0)%Z; lia. Qed.

Lemma gate_owed_le_counted rc p : gate_owed rc p ≤ counted p.
Proof. destruct p; simpl; try lia. destruct (rc =? 1)%Z; lia. Qed.

Lemma mutex_held_le_1 p : mutex_held p ≤ 1.
Proof. destruct p; simpl; lia. Qed.

Lemma counted_le_1 p : counted p ≤ 1.
Proof. destruct p; simpl; lia. Qed.

Lemma wrap_signed_32_small (z : Z) :
  (- 2 ^ 31 ≤ z < 2 ^ 31)%Z → wrap_signed 32 z = z.
Proof.
  intros Hz. unfold wrap_signed.
  change (2 ^ (32 - 1))%Z with 2147483648%Z in *.
  change (2 ^ 32)%Z with 4294967296%Z.
  change (2 ^ 31)%Z with 2147483648%Z in Hz.
  rewrite Z.mod_small; lia.
Qed.

End Totals.

Section StepMeasures.

(** Where the first frame can lead: nowhere that holds anything. *)
Lemma on_first_frame_measures (r : recv_result) (t : thread) :
  let p := t_pc (on_first_frame r t) in
  mutex_held p = 0 ∧ counted p = 0 ∧ writer_holds p = 0 ∧
  ∀ rc, gate_owed rc p = 0 ∧ gate_kept rc p = 0.
Proof.
  unfold on_first_frame. destruct (recv r) as [bytes|]; [|done].
  destruct (mode_of _); try done.
  destruct (p_after _) as [p|]; [|done].
  destruct (0 <? _)%nat; [|done].
  destruct (strcmp0 p "start"); [done |].
  by destruct (strcmp0 p "stop").
Qed.

(** A loop iteration keeps what the writer holds. *)
Lemma on_command_measures (h : bool) (r : recv_result) (t : thread) :
  let p := t_pc (on_command h r t) in
  mutex_held p = 0 ∧ counted p = 0 ∧
  writer_holds p = (if h then 1 else 0) ∧
  ∀ rc, gate_owed rc p = 0 ∧ gate_kept rc p = 0.
Proof.
  unfold on_command. destruct (recv r) as [bytes|]; [|by destruct h].
  destruct (_ =? 0)%nat; [by destruct h |].
  destruct (strcmp0 _ "start"); [by destruct h |].
  destruct (strcmp0 _ "stop"); [by destruct h |].
  destruct (strcmp0 _ "exit"); by destruct h.
Qed.

End StepMeasures.

Section Invariant.

Ltac step_cbn :=
  cbn [t_pc goto send close_and_return mutex_held counted writer_holds
       gate_owed gate_kept wrt mutex reader_count db set_wrt set_mutex
       set_reader_count set_db sh pool] in *.

Ltac split_eqb :=
  repeat match goal with
         | |- context [(?a =? ?b)%Z] => destruct (Z.eqb_spec a b)
         | H : context [(?a =? ?b)%Z] |- _ => destruct (Z.eqb_spec a b)
         end.

(** A step of thread [i] preserves the invariant, as long as fewer than
    2^31 connections have been accepted (so that [reader_count] cannot
    wrap). *)
Lemma thread_step_inv (e : env) (g g' : shared) (l : list thread)
    (i : nat) (t t' : thread) :
  l !! i = Some t → thread_step e g t = Some (g', t') →
  (Z.of_nat (length l) < 2 ^ 31)%Z →
  lock_inv (Server g l) → lock_inv (Server g' (<[i:=t']> l)).
Proof.
  intros Hi Hstep Hlen [Hm Hc Hg]. cbn [sh pool] in *.
  rewrite (total_lookup mutex_held l i t Hi) in Hm.
  rewrite (total_lookup counted l i t Hi) in Hc, Hg.
  rewrite (total_lookup writer_holds l i t Hi),
          (total_lookup (gate_kept _) l i t Hi),
          (total_lookup (gate_owed _) l i t Hi) in Hg.
  assert (Hbound : others counted i l + 1 ≤ length l).
  { pose proof (total_insert counted l i t (Thread RFetch [] true) Hi) as Hins.
    pose proof (total_le_length counted (<[i:=Thread RFetch [] true]> l) counted_le_1).
    rewrite length_insert in *. cbn in Hins. lia. }
  assert (Hothers : ∀ rc,
            others (gate_owed rc) i l ≤ others mutex_held i l ∧
            others (gate_kept rc) i l ≤ others mutex_held i l ∧
            others (gate_owed rc) i l ≤ others counted i l).
  { intros rc. split_and!; apply others_mono.
    - apply gate_owed_le_mutex.
    - apply gate_kept_le_mutex.
    - apply gate_owed_le_counted. }
  pose proof (Hothers (reader_count g)).
  pose proof (Hothers (reader_count g + 1)%Z).
  pose proof (Hothers (reader_count g - 1)%Z).
  change (2 ^ 31)%Z with 2147483648%Z in Hlen.
  unfold thread_step in Hstep.
  destruct t as [p sent o]; cbn [t_pc] in *.
  destruct p; destruct e; try discriminate Hstep.
  all: try (destruct (mutex g) eqn:Emx; [discriminate Hstep |]).
  all: try (destruct (insert_message_to_db_pool _ _ _) as [db' res]).
  all: try match type of Hstep with
           | context [(reader_count ?x =? 1)%Z] =>
               destruct (Z.eqb_spec (reader_count x) 1);
               [destruct (wrt x) eqn:Ewrt; [discriminate Hstep |] |]
           | context [(reader_count ?x =? 0)%Z] =>
               destruct (Z.eqb_spec (reader_count x) 0)
           end.
  all: try (destruct (wrt g) eqn:Ewrt; [discriminate Hstep |]).
  all: injection Hstep as <- <-.
  all: try match goal with
           | |- context [on_first_frame ?r ?u] =>
               pose proof (on_first_frame_measures r u) as Hms
           | |- context [on_command ?h ?r ?u] =>
               pose proof (on_command_measures h r u) as Hms
           end.
  all: try (cbv zeta in Hms; destruct Hms as (Hm1 & Hm2 & Hm3 & Hrc);
            destruct (Hrc (reader_count g)) as [Hm4 Hm5]).
  all: constructor; cbn [sh pool];
       rewrite ?(total_insert mutex_held l i _ _ Hi),
               ?(total_insert counted l i _ _ Hi),
               ?(total_insert writer_holds l i _ _ Hi),
               ?(total_insert (gate_kept _) l i _ _ Hi),
               ?(total_insert (gate_owed _) l i _ _ Hi).
  all: try (rewrite ?Hm1, ?Hm2, ?Hm3, ?Hm4, ?Hm5; step_cbn;
            try destruct has_lock; step_cbn; lia).
  all: step_cbn.
  all: try (rewrite wrap_signed_32_small by lia).
  all: try destruct has_lock; step_cbn; split_eqb; try lia.
Qed.

End Invariant.

Section Reachability.

Lemma init_inv (db0 : list doc) : lock_inv (init db0).
Proof. by constructor. Qed.

Lemma server_step_length (a : action) (s s' : server) :
  server_step a s = Some s' → length (pool s) ≤ length (pool s').
Proof.
  destruct a as [|i e]; simpl.
  - intros [= <-]. simpl. rewrite length_app. lia.
  - destruct (pool s !! i) as [t|]; [|done]. simpl.
    destruct (thread_step e (sh s) t) as [[g' t']|]; [|done]. simpl.
    intros [= <-]. simpl. by rewrite length_insert.
Qed.

Lemma run_length (schedule : list action) (s s' : server) :
  run schedule s = Some s' → length (pool s) ≤ length (pool s').
Proof.
  revert s; induction schedule as [|a rest IH]; intros s; simpl.
  - by intros [= ->].
  - destruct (server_step a s) as [s1|] eqn:E; [|done]. simpl. intros Hrun.
    apply server_step_length in E. apply IH in Hrun. lia.
Qed.

Lemma server_step_inv (a : action) (s s' : server) :
  server_step a s = Some s' →
  (Z.of_nat (length (pool s)) < 2 ^ 31)%Z →
  lock_inv s → lock_inv s'.
Proof.
  destruct a as [|i e]; simpl.
  - intros [= <-] _ [Hm Hc Hg]. constructor; cbn [sh pool];
      rewrite !total_snoc; cbn; rewrite ?Nat.add_0_r; done.
  - destruct (pool s !! i) as [t|] eqn:Hi; [|done]. simpl.
    destruct (thread_step e (sh s) t) as [[g' t']|] eqn:Hstep; [|done]. simpl.
    intros [= <-] Hlen Hinv. destruct s as [g l].
    by eapply thread_step_inv.
Qed.

Lemma run_inv (schedule : list action) (s s' : server) :
  run schedule s = Some s' →
  (Z.of_nat (length (pool s')) < 2 ^ 31)%Z →
  lock_inv s → lock_inv s'.
Proof.
  revert s; induction schedule as [|a rest IH]; intros s; simpl.
  - by intros [= ->].
  - destruct (server_step a s) as [s1|] eqn:E; [|done]. simpl.
    intros Hrun Hlen Hinv. apply (IH s1); [done | done |].
    eapply server_step_inv; [done | | done].
    apply run_length in Hrun. pose proof (server_step_length _ _ _ E).
    change (2 ^ 31)%Z with 2147483648%Z in *. lia.
Qed.

Lemma reachable_inv (db0 : list doc) (s : server) :
  reachable db0 s → (Z.of_nat (length (pool s)) < 2 ^ 31)%Z → lock_inv s.
Proof.
  intros [schedule Hrun] Hlen. eapply run_inv; [done | done | apply init_inv].
Qed.

(** Consequences of the invariant for the totals. *)
Lemma lock_inv_totals (s : server) :
  lock_inv s →
  let rc := reader_count (sh s) in
  total (gate_owed rc) (pool s) ≤ 1 ∧
  total (gate_owed rc) (pool s) ≤ total counted (pool s) ∧
  wrt (sh s) + total writer_holds (pool s) ≤ 1 ∧
  (0 < total (gate_owed rc) (pool s) → rc = 1%Z).
Proof.
  intros [Hm Hc Hg] rc.
  pose proof (total_mono (gate_owed rc) mutex_held (pool s) (gate_owed_le_mutex rc)).
  pose proof (total_mono (gate_owed rc) counted (pool s) (gate_owed_le_counted rc)).
  split_and!; try (fold rc in Hg; lia).
  intros (i & t & Hi & Hpos)%total_pos.
  destruct (t_pc t); simpl in Hpos; try lia.
  destruct (Z.eqb_spec rc 1); [done | lia].
Qed.

Lemma in_read_section_counted (p : pc) :
  in_read_section p = true → counted p = 1 ∧ ∀ rc, gate_owed rc p = 0.
Proof. by destruct p. Qed.

End Reachability.

(** C1, counterexample.  A reader that arrives while a writer holds the
    gate takes [mutex], increments [reader_count] to 1 and then waits for
    [wrt]: in that reachable state [reader_count > 0] although a writer
    holds the gate. *)
Lemma counted_reader_behind_writer :
  ∃ s,
    run [Accept; Accept;
         Run 0 (ERecv (RecvBytes "writer")); Run 0 (ERecv (RecvBytes "start"));
         Run 0 ETau;
         Run 1 (ERecv (RecvBytes "reader")); Run 1 ETau; Run 1 ETau] (init [])
    = Some s ∧
    (reader_count (sh s) > 0)%Z ∧
    pool s = [Thread (WLoop true) ["OK: writer session started"] true;
              Thread RGateIn [] true] ∧
    total writer_holds (pool s) = 1 ∧
    wrt (sh s) = 0.
Proof. eexists. split_and!; [reflexivity | done | reflexivity | reflexivity | reflexivity]. Qed.

(** C1, amended.  In every reachable state of the server (fewer than 2^31
    connections accepted): at most one writer holds the gate; no reader is
    past its entry section and before its decrement of [reader_count]
    while a writer holds the gate, and while a reader is there the gate
    semaphore is taken; [reader_count > 0] together with a writer holding
    the gate happens only with [reader_count = 1], the counted reader
    still waiting for the gate in its entry section; and when the last
    reader is about to release the gate ([reader_count] back to 0, before
    its [sem_post]), no writer holds it and no reader is reading. *)
Theorem mutual_exclusion (db0 : list doc) (s : server) :
  reachable db0 s →
  (Z.of_nat (length (pool s)) < 2 ^ 31)%Z →
  (∀ i j ti tj,
     pool s !! i = Some ti → pool s !! j = Some tj →
     writer_holds (t_pc ti) = 1 → writer_holds (t_pc tj) = 1 → i = j) ∧
  (∀ i j ti tj,
     pool s !! i = Some ti → pool s !! j = Some tj →
     writer_holds (t_pc ti) = 1 → in_read_section (t_pc tj) = false) ∧
  (∀ j tj,
     pool s !! j = Some tj → in_read_section (t_pc tj) = true →
     wrt (sh s) = 0 ∧ (reader_count (sh s) > 0)%Z) ∧
  (∀ i ti,
     pool s !! i = Some ti → writer_holds (t_pc ti) = 1 →
     (reader_count (sh s) > 0)%Z →
     reader_count (sh s) = 1%Z ∧ wrt (sh s) = 0 ∧
     ∃ j tj, pool s !! j = Some tj ∧ t_pc tj = RGateIn) ∧
  (∀ j tj,
     pool s !! j = Some tj → t_pc tj = RGateOut → reader_count (sh s) = 0%Z →
     wrt (sh s) = 0 ∧ total writer_holds (pool s) = 0 ∧
     ∀ k tk, pool s !! k = Some tk → in_read_section (t_pc tk) = false).
Proof.
  intros Hreach Hlen.
  pose proof (reachable_inv db0 s Hreach Hlen) as Hinv.
  destruct (lock_inv_totals s Hinv) as (Ho1 & Hoc & Hw1 & Horc).
  destruct Hinv as [Hm Hc Hg].
  set (rc := reader_count (sh s)) in *.
  assert (Hread : ∀ j tj, pool s !! j = Some tj → in_read_section (t_pc tj) = true →
            0 < total counted (pool s) ∧ total (gate_owed rc) (pool s) = 0).
  { intros j tj Hj [Hcj Hoj]%in_read_section_counted.
    pose proof (total_ge counted (pool s) j tj Hj). split; [lia |].
    destruct (decide (total (gate_owed rc) (pool s) = 0)) as [|Hpos]; [done |].
    exfalso.
    destruct (total_pos (gate_owed rc) (pool s)) as (k & tk & Hk & Hko); [lia |].
    assert (rc = 1%Z) by (apply Horc; lia).
    assert (counted (t_pc tk) = 1).
    { pose proof (gate_owed_le_counted rc (t_pc tk)).
      pose proof (counted_le_1 (t_pc tk)). lia. }
    assert (j = k).
    { eapply (total_unique counted); eauto. lia. }
    subst k. rewrite Hj in Hk. injection Hk as <-.
    specialize (Hoj rc). lia. }
  split_and!.
  - intros i j ti tj Hi Hj Hwi Hwj.
    eapply (total_unique writer_holds); eauto. lia.
  - intros i j ti tj Hi Hj Hwi.
    destruct (in_read_section (t_pc tj)) eqn:Hr; [|done]. exfalso.
    destruct (Hread j tj Hj Hr) as [Hpos Hz].
    pose proof (total_ge writer_holds (pool s) i ti Hi). lia.
  - intros j tj Hj Hr. destruct (Hread j tj Hj Hr) as [Hpos Hz]. lia.
  - intros i ti Hi Hwi Hrc.
    pose proof (total_ge writer_holds (pool s) i ti Hi).
    assert (Hpos : 0 < total (gate_owed rc) (pool s)) by lia.
    split; [by apply Horc |]. split; [lia |].
    destruct (total_pos _ _ Hpos) as (j & tj & Hj & Hjo).
    exists j, tj. split; [done |].
    destruct (t_pc tj); simpl in Hjo; try lia. done.
  - intros j tj Hj Hpc Hrc0.
    assert (Hk : 0 < total (gate_kept rc) (pool s)).
    { pose proof (total_ge (gate_kept rc) (pool s) j tj Hj) as Hge.
      rewrite Hpc in Hge. cbn [gate_kept] in Hge.
      destruct (Z.eqb_spec rc 0); [lia | done]. }
    assert (Hz : total counted (pool s) = 0) by lia.
    split; [lia |]. split; [lia |].
    intros k tk Hk' . destruct (in_read_section (t_pc tk)) eqn:Hr; [|done].
    destruct (Hread k tk Hk' Hr). lia.
Qed.

Lemma mutual_exclusion_witness :
  let schedule :=
    [Accept; Accept;
     Run 0 (ERecv (RecvBytes "reader")); Run 0 ETau; Run 0 ETau; Run 0 ETau;
     Run 0 ETau;
     Run 1 (ERecv (RecvBytes "writer start"))] in
  let s := Server (Shared 0 1 1 [])
                  [Thread RFetch [] true; Thread (WStart false) [] true] in
  run schedule (init []) = Some s ∧
  wrt (sh s) = 0 ∧ (reader_count (sh s) > 0)%Z.
Proof.
  intros schedule s.
  assert (Hrun : run schedule (init []) = Some s) by reflexivity.
  split; [exact Hrun |].
  exact (proj1 (proj2 (proj2
           (mutual_exclusion [] s (ex_intro _ schedule Hrun) eq_refl)))
         0 (Thread RFetch [] true) eq_refl eq_refl).
Defined.

(* ===================================================================== *)
(** ** Further properties of the string handling *)
(* ===================================================================== *)

Section Trimming.

Lemma rtrim_all_eol (tail : string) :
  all_of is_eol tail = true → rtrim tail = EmptyString.
Proof.
  induction tail as [|c tail IH]; [done |]. cbn [all_of rtrim].
  intros [Hc Ht]%andb_true_iff. by rewrite IH, Hc.
Qed.

Lemma ends_in_append (p : ascii → bool) (a b : string) :
  b ≠ EmptyString → ends_in p (a +:+ b) = ends_in p b.
Proof.
  intros Hb. induction a as [|c a IH]; [done |].
  cbn [String.append ends_in]. rewrite IH. by destruct (a +:+ b) eqn:E; [destruct a, b |].
Qed.

Lemma rtrim_keeps (a tail : string) :
  all_of is_eol tail = true → ends_in is_eol a = false → rtrim (a +:+ tail) = a.
Proof.
  intros Ht. induction a as [|c a IH]; intros Ha.
  - by apply rtrim_all_eol.
  - cbn [String.append rtrim]. destruct a as [|c' a].
    + cbn [String.append]. rewrite rtrim_all_eol by done.
      cbn [ends_in] in Ha. by rewrite Ha.
    + rewrite IH by done. by rewrite andb_false_r.
Qed.

Lemma rtrim_splits (s : string) :
  ∃ tail, s = rtrim s +:+ tail ∧ all_of is_eol tail = true ∧
          ends_in is_eol (rtrim s) = false.
Proof.
  induction s as [|c s (tail & Hs & Ht & He)]; [by exists EmptyString |].
  cbn [rtrim]. destruct (is_eol c && is_empty (rtrim s)) eqn:Hcut.
  - apply andb_true_iff in Hcut as [Hc Hr]. destruct (rtrim s); [|done].
    exists (String c tail). cbn [String.append all_of] in *.
    subst s. by rewrite Hc, Ht.
  - exists tail. split_and!; [cbn; by rewrite <- Hs | done |].
    cbn [ends_in]. destruct (rtrim s); [|done].
    by rewrite andb_true_r in Hcut.
Qed.

End Trimming.

(** X1. [rtrim] removes exactly the line ends at the end of the text:
    every string is its trimmed form followed by carriage returns and line
    feeds only, the trimmed form does not end in one, and a text that does
    not end in a line end is recovered unchanged from any such extension. *)
Theorem rtrim_cuts_line_ends (s : string) :
  (∃ tail, s = rtrim s +:+ tail ∧ all_of is_eol tail = true) ∧
  ends_in is_eol (rtrim s) = false ∧
  (∀ tail, all_of is_eol tail = true → ends_in is_eol s = false →
           rtrim (s +:+ tail) = s).
Proof.
  destruct (rtrim_splits s) as (tail & Hs & Ht & He).
  split_and!; [by exists tail | done |].
  intros tail' Ht' Hs'. by apply rtrim_keeps.
Qed.

Lemma rtrim_cuts_line_ends_witness :
  rtrim ("hello" +:+ String CR (String LF EmptyString)) = "hello".
Proof.
  exact (proj2 (proj2 (rtrim_cuts_line_ends "hello"))
           (String CR (String LF EmptyString)) eq_refl eq_refl).
Defined.

Section PayloadParse.

Lemma none_of_append (p : ascii → bool) (a b : string) :
  none_of p (a +:+ b) = none_of p a && none_of p b.
Proof.
  induction a as [|c a IH]; [done |]. cbn [String.append none_of].
  by rewrite IH, andb_assoc.
Qed.

Lemma all_blank_no_nul (ws : string) :
  all_of is_blank ws = true → none_of (Ascii.eqb NUL) ws = true.
Proof.
  induction ws as [|c ws IH]; [done |]. cbn [all_of none_of].
  intros [Hc Hw]%andb_true_iff. rewrite IH by done.
  destruct (Ascii.eqb_spec NUL c) as [<-|]; [done | done].
Qed.

Lemma all_eol_blank (s : string) :
  all_of is_eol s = true → all_of is_blank s = true.
Proof.
  induction s as [|c s IH]; [done |]. cbn [all_of].
  intros [Hc Hs]%andb_true_iff. rewrite IH, andb_true_r by done.
  unfold is_blank. by rewrite Hc, orb_true_r.
Qed.

Lemma skip_blank_append (ws rest : string) :
  all_of is_blank ws = true → starts_in is_blank rest = false →
  skip_blank (ws +:+ rest) = rest.
Proof.
  intros Hw Hr. induction ws as [|c ws IH].
  - destruct rest as [|c rest]; [done |]. cbn in *. by rewrite Hr.
  - cbn [all_of] in Hw. apply andb_true_iff in Hw as [Hc Hw].
    cbn [String.append skip_blank]. rewrite Hc. by apply IH.
Qed.

End PayloadParse.

(** X2. Parsing of the role frame of a writer: the frame "writer", then any
    run of blanks (spaces, CR, LF; possibly none), then a command that
    neither starts with a blank nor ends in a line end, then any line ends,
    is recognised as a writer frame whose payload is exactly the
    command. *)
Theorem role_frame_payload_parse (ws cmd eols : string) :
  all_of is_blank ws = true →
  all_of is_eol eols = true →
  cmd ≠ "" →
  none_of (Ascii.eqb NUL) cmd = true →
  starts_in is_blank cmd = false →
  ends_in is_eol cmd = false →
  let frame := "writer" +:+ ws +:+ cmd +:+ eols in
  mode_of (rtrim (cstr frame)) = Writer ∧
  p_after (rtrim (cstr frame)) = Some cmd.
Proof.
  intros Hws Heols Hne Hnul Hstart Hend frame.
  assert (Hc : cstr frame = frame).
  { apply cstr_no_nul. unfold frame. rewrite !none_of_append, Hnul.
    rewrite (all_blank_no_nul ws), (all_blank_no_nul eols); [done | | done].
    by apply all_eol_blank. }
  assert (Hr : rtrim frame = "writer" +:+ ws +:+ cmd).
  { unfold frame.
    rewrite <- (append_assoc ws cmd eols), <- (append_assoc "writer" (ws +:+ cmd) eols).
    apply rtrim_keeps; [done |].
    rewrite ends_in_append; [by rewrite ends_in_append |].
    by destruct ws, cmd. }
  rewrite Hc, Hr. split.
  - reflexivity.
  - unfold p_after.
    replace (6 <? String.length ("writer" +:+ ws +:+ cmd))%nat with true.
    2:{ symmetry. apply Nat.ltb_lt. rewrite !append_length.
        destruct cmd; [done |]. cbn. lia. }
    change (sdrop 6 ("writer" +:+ ws +:+ cmd)) with (ws +:+ cmd).
    rewrite skip_blank_append by done.
    destruct cmd as [|c cmd]; [done |]. cbn [is_empty]. f_equal.
    rewrite <- (append_empty_r (String c cmd)) at 1. by apply rtrim_keeps.
Qed.

Lemma role_frame_payload_parse_witness :
  p_after (rtrim (cstr ("writer" +:+ (" " +:+ nl) +:+ "start" +:+ (String CR nl))))
  = Some "start".
Proof.
  exact (proj2 (role_frame_payload_parse (" " +:+ nl) "start" (String CR nl)
                  eq_refl eq_refl ltac:(discriminate) eq_refl eq_refl eq_refl)).
Defined.

(* ===================================================================== *)
(** ** Further properties of the server *)
(* ===================================================================== *)

Section ThreadInvariants.

Variable P : thread → Prop.
Hypothesis P_new : P new_thread.
Hypothesis P_step : ∀ e g t g' t', thread_step e g t = Some (g', t') → P t → P t'.

Lemma server_step_threads (a : action) (s s' : server) :
  server_step a s = Some s' → Forall P (pool s) → Forall P (pool s').
Proof using P_new P_step.
  destruct a as [|i e]; simpl.
  - intros [= <-] Hall. simpl. apply Forall_app. split; [done |].
    by constructor.
  - destruct (pool s !! i) as [t|] eqn:Hi; [|done]. simpl.
    destruct (thread_step e (sh s) t) as [[g' t']|] eqn:Hstep; [|done]. simpl.
    intros [= <-] Hall. simpl. apply Forall_insert; [done |].
    eapply P_step; [done |]. exact (Forall_lookup_1 _ _ _ _ Hall Hi).
Qed.

Lemma run_threads (schedule : list action) (s s' : server) :
  run schedule s = Some s' → Forall P (pool s) → Forall P (pool s').
Proof using P_new P_step.
  revert s; induction schedule as [|a rest IH]; intros s; simpl.
  - by intros [= ->].
  - destruct (server_step a s) as [s1|] eqn:E; [|done]. simpl.
    intros Hrun Hall. apply (IH s1 Hrun). by eapply server_step_threads.
Qed.

(** A property of the new thread that every step keeps holds of every
    thread of every reachable state. *)
Lemma reachable_threads (db0 : list doc) (s : server) :
  reachable db0 s → Forall P (pool s).
Proof using P_new P_step.
  intros [schedule Hrun]. eapply run_threads; [done |]. constructor.
Qed.

End ThreadInvariants.

Section Store.

Lemma wrap_signed_64_range (z : Z) : (- 2 ^ 63 ≤ wrap_signed 64 z < 2 ^ 63)%Z.
Proof.
  unfold wrap_signed.
  change (2 ^ (64 - 1))%Z with 9223372036854775808%Z.
  change (2 ^ 64)%Z with 18446744073709551616%Z.
  change (2 ^ 63)%Z with 9223372036854775808%Z.
  pose proof (Z.mod_pos_bound (z + 9223372036854775808) 18446744073709551616).
  lia.
Qed.

(** The text of a received frame, once trimmed, is a C string without
    line end at its end that fits the buffer. *)
Lemma received_text (r : recv_result) (bytes : string) :
  recv r = Some bytes →
  let buf := rtrim (cstr bytes) in
  cstr buf = buf ∧ rtrim buf = buf ∧ String.length buf ≤ BUFFER_SIZE - 1.
Proof.
  intros [Hlen _]%recv_bound buf. split_and!.
  - apply cstr_no_nul, rtrim_none_of, cstr_none_of_nul.
  - apply rtrim_idem.
  - pose proof (rtrim_length (cstr bytes)). pose proof (cstr_length bytes).
    unfold buf. lia.
Qed.

Lemma first_frame_never_inserts (r : recv_result) (t : thread) :
  insert_pending_ok (on_first_frame r t).
Proof.
  unfold insert_pending_ok, on_first_frame.
  destruct (recv r) as [bytes|]; [|done].
  destruct (mode_of _); try done.
  destruct (p_after _) as [p|]; [|done].
  destruct (0 <? _)%nat; [|done].
  destruct (strcmp0 p "start"); [done |].
  by destruct (strcmp0 p "stop").
Qed.

Lemma command_inserts_storable (has_lock : bool) (r : recv_result) (t : thread) :
  insert_pending_ok (on_command has_lock r t).
Proof.
  unfold insert_pending_ok, on_command.
  destruct (recv r) as [bytes|] eqn:Hr; [|done].
  destruct (received_text r bytes Hr) as (Hc & Ht & Hl).
  destruct (_ =? 0)%nat eqn:H0; [done |].
  destruct (strcmp0 _ "start") eqn:H1; [done |].
  destruct (strcmp0 _ "stop") eqn:H2; [by destruct has_lock |].
  destruct (strcmp0 _ "exit") eqn:H3; [done |].
  destruct has_lock; [|done]. cbn. intros h m [= <- <-].
  split; [done |]. unfold storable.
  apply String.eqb_neq in H1, H2, H3.
  split_and!; try done.
  intros E. by rewrite E in H0.
Qed.

Lemma step_keeps_insert_pending (e : env) (g g' : shared) (t t' : thread) :
  thread_step e g t = Some (g', t') → insert_pending_ok t → insert_pending_ok t'.
Proof.
  intros Hstep _. unfold thread_step in Hstep.
  destruct (t_pc t); destruct e; try discriminate Hstep.
  all: try (destruct (mutex g); [discriminate Hstep |]).
  all: try (destruct (insert_message_to_db_pool _ _ _) as [db' res]).
  all: try match type of Hstep with
           | context [(reader_count ?x =? 1)%Z] =>
               destruct (reader_count x =? 1)%Z;
               [destruct (wrt x); [discriminate Hstep |] |]
           end.
  all: try (destruct (wrt g); [discriminate Hstep |]).
  all: injection Hstep as <- <-.
  all: try apply first_frame_never_inserts.
  all: try apply command_inserts_storable.
  all: done.
Qed.

(** A step leaves the collection alone or appends one document of a
    storable text. *)
Lemma step_db (e : env) (g g' : shared) (t t' : thread) :
  thread_step e g t = Some (g', t') → insert_pending_ok t →
  db g' = db g ∨ ∃ d, stored_by_server d ∧ db g' = db g ++ [d].
Proof.
  intros Hstep Hok. unfold thread_step in Hstep.
  destruct (t_pc t) eqn:Hpc; destruct e; try discriminate Hstep.
  all: try (destruct (mutex g); [discriminate Hstep |]).
  all: try match type of Hstep with
           | context [(reader_count ?x =? 1)%Z] =>
               destruct (reader_count x =? 1)%Z;
               [destruct (wrt x); [discriminate Hstep |] |]
           | context [(reader_count ?x =? 0)%Z] =>
               destruct (reader_count x =? 0)%Z
           end.
  all: try (destruct (wrt g); [discriminate Hstep |]).
  all: try (destruct has_lock; injection Hstep as <- <-; by left).
  all: try (injection Hstep as <- <-; by left).
  destruct (Hok _ _ Hpc) as [_ Hm].
  unfold insert_message_to_db_pool in Hstep.
  destruct e as [[] now [err|]];
    cbn [ins_status ins_error ins_now] in Hstep; injection Hstep as <- <-;
    try by left.
  right. eexists. split; [|done].
  eexists _, _. split; [done |]. split; [done |]. apply wrap_signed_64_range.
Qed.

Lemma run_store (schedule : list action) (s s' : server) :
  run schedule s = Some s' → Forall insert_pending_ok (pool s) →
  ∃ added, db (sh s') = db (sh s) ++ added ∧ Forall stored_by_server added.
Proof.
  revert s; induction schedule as [|a rest IH]; intros s; simpl.
  - intros [= ->] _. exists []. by rewrite app_nil_r.
  - destruct (server_step a s) as [s1|] eqn:E; [|done]. simpl.
    intros Hrun Hall.
    assert (Hall1 : Forall insert_pending_ok (pool s1)).
    { eapply server_step_threads; [done | | done | done].
      intros. by eapply step_keeps_insert_pending. }
    destruct (IH s1 Hrun Hall1) as (added & Hdb & Hadded).
    destruct a as [|i e]; simpl in E.
    + injection E as <-. by exists added.
    + destruct (pool s !! i) as [t|] eqn:Hi; [|done]. simpl in E.
      destruct (thread_step e (sh s) t) as [[g' t']|] eqn:Hstep; [|done].
      injection E as <-. simpl in *.
      assert (Ht : insert_pending_ok t)
        by exact (Forall_lookup_1 _ _ _ _ Hall Hi).
      destruct (step_db e (sh s) g' t t' Hstep Ht) as [Hsame | (d & Hd & Hgrow)].
      * exists added. by rewrite Hdb, Hsame.
      * exists (d :: added). rewrite Hdb, Hgrow, <- app_assoc. split; [done |].
        by constructor.
Qed.

End Store.

(** X3. The collection is append-only and holds only storable texts: in
    every reachable state the collection is the one the server started
    with followed by documents this server wrote, each carrying a message
    and a timestamp in the 64-bit range, the message being a non-empty C
    string of at most 4095 bytes that does not end in a line end and is
    none of "start", "stop", "exit". *)
Theorem store_is_append_only (db0 : list doc) (s : server) :
  reachable db0 s →
  ∃ added, db (sh s) = db0 ++ added ∧ Forall stored_by_server added.
Proof.
  intros [schedule Hrun].
  apply (run_store schedule (init db0) s Hrun). constructor.
Qed.

Lemma store_is_append_only_witness :
  ∃ added,
    [Doc (Some "old") None; Doc (Some "hello") (Some 5000%Z)]
    = [Doc (Some "old") None] ++ added ∧
    Forall stored_by_server added.
Proof.
  refine (store_is_append_only [Doc (Some "old") None]
            (Server (Shared 0 1 0 [Doc (Some "old") None; Doc (Some "hello") (Some 5000%Z)])
                    [Thread (WLoop true)
                       ["OK: writer session started"; line "OK: message stored"] true])
            (ex_intro _ [Accept; Run 0 (ERecv (RecvBytes "writer start")); Run 0 ETau;
                         Run 0 (ERecv (RecvBytes "hello"));
                         Run 0 (EInsert (InsertEnv DbReady 5 None))] _)).
  reflexivity.
Defined.

Section LockConsequences.

Lemma reachable_insert_pending (db0 : list doc) (s : server) :
  reachable db0 s → Forall insert_pending_ok (pool s).
Proof.
  apply reachable_threads; [done |].
  intros. by eapply step_keeps_insert_pending.
Qed.

(** With the invariant, a writer that holds the gate excludes everyone
    else. *)
Lemma lock_inv_holder (s : server) (i : nat) (ti : thread) :
  lock_inv s → pool s !! i = Some ti → writer_holds (t_pc ti) = 1 →
  wrt (sh s) = 0 ∧
  (∀ j tj, pool s !! j = Some tj → in_read_section (t_pc tj) = false) ∧
  (∀ j tj, pool s !! j = Some tj → writer_holds (t_pc tj) = 1 → j = i).
Proof.
  intros Hinv Hi Hwi.
  destruct (lock_inv_totals s Hinv) as (Ho1 & Hoc & Hw1 & Horc).
  destruct Hinv as [Hm Hc Hg].
  pose proof (total_ge writer_holds (pool s) i ti Hi) as Hge.
  split_and!.
  - lia.
  - intros j tj Hj. destruct (in_read_section (t_pc tj)) eqn:Hr; [|done]. exfalso.
    destruct (in_read_section_counted _ Hr) as [Hcj Hoj].
    pose proof (total_ge counted (pool s) j tj Hj).
    assert (Hpos : 0 < total (gate_owed (reader_count (sh s))) (pool s)) by lia.
    destruct (total_pos _ _ Hpos) as (k & tk & Hk & Hko).
    assert (Hrc1 : reader_count (sh s) = 1%Z) by by apply Horc.
    assert (counted (t_pc tk) = 1).
    { pose proof (gate_owed_le_counted (reader_count (sh s)) (t_pc tk)).
      pose proof (counted_le_1 (t_pc tk)). lia. }
    assert (j = k) by (eapply (total_unique counted); eauto; lia).
    subst k. rewrite Hj in Hk. injection Hk as <-.
    specialize (Hoj (reader_count (sh s))). lia.
  - intros j tj Hj Hwj. eapply (total_unique writer_holds); eauto. lia.
Qed.

Lemma idle_measures (p : pc) :
  idle p = true → mutex_held p = 0 ∧ counted p = 0 ∧ writer_holds p = 0.
Proof. destruct p as [| [] | [] | | [] ? | [] | | | | | | | | | |]; done. Qed.

Lemma total_zero (f : pc → nat) (l : list thread) :
  Forall (λ t, f (t_pc t) = 0) l → total f l = 0.
Proof.
  unfold total. induction 1 as [|t l Ht _ IH]; simpl; [done | lia].
Qed.

End LockConsequences.

(** X4. Messages are inserted only under the lock: in every reachable
    state (fewer than 2^31 connections accepted), a thread that is about to
    call [insert_message_to_db_pool] has [has_lock] set and a storable text,
    the gate semaphore is taken, no reader is in its read section and no
    other thread holds the gate. *)
Theorem inserts_hold_the_lock
    (db0 : list doc) (s : server) (i : nat) (t : thread) (h : bool) (m : string) :
  reachable db0 s →
  (Z.of_nat (length (pool s)) < 2 ^ 31)%Z →
  pool s !! i = Some t → t_pc t = WInsert h m →
  h = true ∧ storable m ∧ wrt (sh s) = 0 ∧
  (∀ j tj, pool s !! j = Some tj → in_read_section (t_pc tj) = false) ∧
  (∀ j tj, pool s !! j = Some tj → writer_holds (t_pc tj) = 1 → j = i).
Proof.
  intros Hreach Hlen Hi Hpc.
  pose proof (Forall_lookup_1 _ _ _ _ (reachable_insert_pending db0 s Hreach) Hi) as Hok.
  destruct (Hok h m Hpc) as [-> Hm].
  split; [done |]. split; [done |].
  apply (lock_inv_holder s i t); [by eapply reachable_inv | done |].
  by rewrite Hpc.
Qed.

Lemma inserts_hold_the_lock_witness :
  let s := Server (Shared 0 1 0 [])
                  [Thread (WInsert true "hello") ["OK: writer session started"] true] in
  wrt (sh s) = 0 ∧ storable "hello".
Proof.
  intros s.
  assert (Hrun : run [Accept; Run 0 (ERecv (RecvBytes "writer start")); Run 0 ETau;
                      Run 0 (ERecv (RecvBytes "hello"))] (init []) = Some s)
    by reflexivity.
  destruct (inserts_hold_the_lock [] s 0 _ true "hello"
              (ex_intro _ _ Hrun) eq_refl eq_refl eq_refl) as (_ & Hm & Hw & _).
  split; [exact Hw | exact Hm].
Defined.

(** X5. The semaphores stay binary and the counter stays in range: in
    every reachable state (fewer than 2^31 connections accepted) [wrt] and
    [mutex] are 0 or 1, so no [sem_post] is ever made on a free semaphore,
    and [reader_count] is the number of counted readers, between 0 and the
    number of connections. *)
Theorem semaphores_stay_binary (db0 : list doc) (s : server) :
  reachable db0 s →
  (Z.of_nat (length (pool s)) < 2 ^ 31)%Z →
  wrt (sh s) ≤ 1 ∧ mutex (sh s) ≤ 1 ∧
  reader_count (sh s) = Z.of_nat (total counted (pool s)) ∧
  (0 ≤ reader_count (sh s) ≤ Z.of_nat (length (pool s)))%Z.
Proof.
  intros Hreach Hlen.
  pose proof (reachable_inv db0 s Hreach Hlen) as Hinv.
  destruct (lock_inv_totals s Hinv) as (Ho1 & Hoc & Hw1 & Horc).
  destruct Hinv as [Hm Hc Hg].
  pose proof (total_le_length counted (pool s) counted_le_1).
  split_and!; lia.
Qed.

Lemma semaphores_stay_binary_witness :
  let s := Server (Shared 0 1 1 []) [Thread RFetch [] true] in
  wrt (sh s) ≤ 1 ∧ mutex (sh s) ≤ 1.
Proof.
  intros s.
  assert (Hrun : run [Accept; Run 0 (ERecv (RecvBytes "reader")); Run 0 ETau;
                      Run 0 ETau; Run 0 ETau; Run 0 ETau] (init []) = Some s)
    by reflexivity.
  destruct (semaphores_stay_binary [] s (ex_intro _ _ Hrun) eq_refl)
    as (Hw & Hm & _).
  split; [exact Hw | exact Hm].
Defined.

(** X6. The lock is never leaked: in a reachable state (fewer than 2^31
    connections accepted) in which every thread is idle, that is not yet
    started, a writer without the lock, a reader still before
    [sem_wait(&mutex)], or finished, both semaphores are free and
    [reader_count] is 0.  In particular the lock is free once every
    connection has ended. *)
Theorem lock_free_when_idle (db0 : list doc) (s : server) :
  reachable db0 s →
  (Z.of_nat (length (pool s)) < 2 ^ 31)%Z →
  Forall (λ t, idle (t_pc t) = true) (pool s) →
  wrt (sh s) = 1 ∧ mutex (sh s) = 1 ∧ reader_count (sh s) = 0%Z.
Proof.
  intros Hreach Hlen Hidle.
  pose proof (reachable_inv db0 s Hreach Hlen) as Hinv.
  destruct (lock_inv_totals s Hinv) as (Ho1 & Hoc & Hw1 & Horc).
  destruct Hinv as [Hm Hc Hg].
  assert (Hz1 : total mutex_held (pool s) = 0).
  { apply total_zero. eapply Forall_impl; [done |].
    intros t Ht. by apply idle_measures. }
  assert (Hz2 : total counted (pool s) = 0).
  { apply total_zero. eapply Forall_impl; [done |].
    intros t Ht. by apply idle_measures. }
  assert (Hz3 : total writer_holds (pool s) = 0).
  { apply total_zero. eapply Forall_impl; [done |].
    intros t Ht. by apply idle_measures. }
  pose proof (total_mono (gate_kept (reader_count (sh s))) mutex_held (pool s)
                (gate_kept_le_mutex _)).
  split_and!; lia.
Qed.

Lemma lock_free_when_idle_witness :
  let s := Server (Shared 1 1 0 [])
                  [Thread Done ["OK: writer session started"] false;
                   Thread Done [EmptyString] false] in
  wrt (sh s) = 1 ∧ mutex (sh s) = 1 ∧ reader_count (sh s) = 0%Z.
Proof.
  intros s.
  assert (Hrun : run [Accept; Accept;
                      Run 0 (ERecv (RecvBytes "writer start")); Run 0 ETau;
                      Run 0 (ERecv RecvError); Run 0 ETau;
                      Run 1 (ERecv (RecvBytes "reader")); Run 1 ETau; Run 1 ETau;
                      Run 1 ETau; Run 1 ETau;
                      Run 1 (EFetch DbReady (λ _, "1970-01-01 00:00:00"));
                      Run 1 ETau; Run 1 ETau; Run 1 ETau; Run 1 ETau]
                     (init []) = Some s)
    by reflexivity.
  apply (lock_free_when_idle [] s (ex_intro _ _ Hrun) eq_refl).
  repeat constructor.
Defined.

(** X7. A second "start" never gets through: in every reachable state
    (fewer than 2^31 connections accepted) a writer that waits for the gate
    while it already holds it cannot make a step, whatever the environment
    offers; the gate semaphore is at 0 there. *)
Theorem restart_never_proceeds (db0 : list doc) (s : server) (i : nat) (t : thread) :
  reachable db0 s →
  (Z.of_nat (length (pool s)) < 2 ^ 31)%Z →
  pool s !! i = Some t → t_pc t = WStart true →
  wrt (sh s) = 0 ∧ ∀ e, server_step (Run i e) s = None.
Proof.
  intros Hreach Hlen Hi Hpc.
  pose proof (reachable_inv db0 s Hreach Hlen) as Hinv.
  destruct (lock_inv_holder s i t Hinv Hi) as (Hw & _); [by rewrite Hpc |].
  split; [done |]. intros e. cbn [server_step]. rewrite Hi. cbn.
  unfold thread_step. rewrite Hpc, Hw. by destruct e.
Qed.

Lemma restart_never_proceeds_witness :
  let s := Server (Shared 0 1 0 [])
                  [Thread (WStart true) ["OK: writer session started"] true] in
  wrt (sh s) = 0 ∧ server_step (Run 0 ETau) s = None.
Proof.
  intros s.
  assert (Hrun : run [Accept; Run 0 (ERecv (RecvBytes "writer start")); Run 0 ETau;
                      Run 0 (ERecv (RecvBytes "start"))] (init []) = Some s)
    by reflexivity.
  destruct (restart_never_proceeds [] s 0 _ (ex_intro _ _ Hrun)
              eq_refl eq_refl eq_refl) as [Hw Hstuck].
  split; [exact Hw | exact (Hstuck ETau)].
Defined.

Section Sockets.

Lemma step_open (e : env) (g g' : shared) (t t' : thread) :
  thread_step e g t = Some (g', t') → open_until_done t → open_until_done t'.
Proof.
  unfold open_until_done. intros Hstep Ho. unfold thread_step in Hstep.
  destruct t as [p sent o]. cbn [t_pc t_open] in *.
  destruct p; destruct e; try discriminate Hstep; cbn in Ho; subst o.
  all: try (destruct (mutex g); [discriminate Hstep |]).
  all: try (destruct (insert_message_to_db_pool _ _ _) as [db' res]).
  all: try match type of Hstep with
           | context [(reader_count ?x =? 1)%Z] =>
               destruct (reader_count x =? 1)%Z;
               [destruct (wrt x); [discriminate Hstep |] |]
           end.
  all: try (destruct (wrt g); [discriminate Hstep |]).
  all: injection Hstep as <- <-.
  all: try done.
  - unfold on_first_frame. destruct (recv r) as [bytes|]; [|done].
    destruct (mode_of _); try done.
    destruct (p_after _) as [p|]; [|done].
    destruct (0 <? _)%nat; [|done].
    destruct (strcmp0 p "start"); [done |].
    by destruct (strcmp0 p "stop").
  - unfold on_command. destruct (recv r) as [bytes|]; [|done].
    destruct (_ =? 0)%nat; [done |].
    destruct (strcmp0 _ "start"); [done |].
    destruct (strcmp0 _ "stop"); [by destruct has_lock |].
    destruct (strcmp0 _ "exit"); [done |].
    by destruct has_lock.
Qed.

End Sockets.

(** X8. A socket is closed exactly when its handler has returned: in
    every reachable state a thread's socket is open if and only if the
    thread is not finished, and a thread whose socket is closed makes no
    further step, so nothing is sent on a closed socket and no semaphore is
    touched after [close]. *)
Theorem closed_connections_are_finished
    (db0 : list doc) (s : server) (i : nat) (t : thread) :
  reachable db0 s → pool s !! i = Some t →
  (t_open t = false ↔ t_pc t = Done) ∧
  (t_open t = false → ∀ e, server_step (Run i e) s = None).
Proof.
  intros Hreach Hi.
  assert (Ho : open_until_done t).
  { refine (Forall_lookup_1 _ _ _ _ (reachable_threads open_until_done _ _ db0 s Hreach) Hi).
    - done.
    - intros. by eapply step_open. }
  unfold open_until_done in Ho.
  assert (Hiff : t_open t = false ↔ t_pc t = Done).
  { rewrite Ho. destruct (decide (t_pc t = Done)) as [Hd|Hd].
    - by rewrite bool_decide_eq_true_2.
    - by rewrite bool_decide_eq_false_2. }
  split; [done |]. intros Hc e. apply Hiff in Hc.
  cbn [server_step]. rewrite Hi. cbn. by rewrite done_stuck.
Qed.

Lemma closed_connections_are_finished_witness :
  let s := Server (Shared 1 1 0 []) [Thread Done [] false] in
  server_step (Run 0 (ERecv (RecvBytes "hello"))) s = None.
Proof.
  intros s.
  assert (Hrun : run [Accept; Run 0 (ERecv (RecvBytes "spectator"))] (init []) = Some s)
    by reflexivity.
  exact (proj2 (closed_connections_are_finished [] s 0 _ (ex_intro _ _ Hrun) eq_refl)
           eq_refl (ERecv (RecvBytes "hello"))).
Defined.

Section InsertFacts.

Lemma snoc_neq {A} (l : list A) (x : A) : l ++ [x] ≠ l.
Proof.
  intros H. apply (f_equal length) in H. rewrite length_app in H. simpl in H. lia.
Qed.

End InsertFacts.

(** X9. The acknowledgement of an insertion tells what happened to the
    collection: the result starts with "OK: " exactly when the message was
    appended (as the last document, with the clock's timestamp), and with
    "ERROR: " exactly when the collection is unchanged; no other outcome
    exists, and the result never exceeds 511 bytes. *)
Theorem insert_ack_tells_outcome (d : list doc) (ie : insert_env) (msg : string) :
  let r := insert_message_to_db_pool d ie msg in
  let stored := d ++ [Doc (Some msg) (Some (wrap_signed 64 (ins_now ie * 1000)))] in
  (String.prefix "OK: " r.2 = true ↔ r.1 = stored) ∧
  (String.prefix "ERROR: " r.2 = true ↔ r.1 = d) ∧
  (r.1 = stored ∨ r.1 = d) ∧
  String.length r.2 ≤ 511.
Proof.
  destruct ie as [st now err]. cbn [ins_now].
  assert (Hlen : ∀ x, String.length (snprintf 512 x) ≤ 511).
  { intros x. unfold snprintf. rewrite stake_length. apply Nat.le_min_l. }
  destruct st, err as [e|]; cbn -[snprintf];
    (split_and!; [split | split | | ]);
    try done; try (by left); try (by right); try apply Hlen;
    try (by intros ?%snoc_neq);
    try (by intros H; symmetry in H; apply snoc_neq in H);
    try (apply Nat.leb_le; by vm_compute).
Qed.

Section ReadersTogether.

Lemma wrap_incr (rc : Z) :
  (0 ≤ rc < 2 ^ 31 - 1)%Z → wrap_signed 32 (rc + 1) = (rc + 1)%Z.
Proof.
  intros H. apply wrap_signed_32_small.
  change (2 ^ 31)%Z with 2147483648%Z in *. lia.
Qed.

Lemma wrap_decr (rc : Z) :
  (0 < rc < 2 ^ 31)%Z → wrap_signed 32 (rc - 1) = (rc - 1)%Z.
Proof.
  intros H. apply wrap_signed_32_small.
  change (2 ^ 31)%Z with 2147483648%Z in *. lia.
Qed.

End ReadersTogether.

(** X10. Readers do not wait for each other: a reader that arrives while
    other readers are counted ([reader_count >= 1]) and [mutex] is free
    runs through its entry section, its fetch and send, and its exit
    section without waiting on [wrt] and without changing it, whatever
    the value of [wrt]; afterwards the shared state is as it found it. *)
Theorem reader_joins_readers
    (strftime_local : Z → string) (st : db_status) (g : shared) (sent : list string) :
  mutex g = 1 → (1 ≤ reader_count g < 2 ^ 31 - 1)%Z →
  thread_run [ETau; ETau; ETau; ETau] g (Thread RLock1 sent true)
  = Some (set_reader_count (reader_count g + 1) g, Thread RFetch sent true) ∧
  thread_run [ETau; ETau; ETau; ETau; EFetch st strftime_local; ETau; ETau; ETau; ETau]
             g (Thread RLock1 sent true)
  = Some (g, Thread Done
               (sent ++ [fetch_messages_from_db_pool strftime_local st
                           (find_sorted (db g)) OUT_SIZE]) false).
Proof.
  destruct g as [w m rc d]. cbn [mutex reader_count]. intros -> Hrc.
  assert (Hne1 : (rc + 1 =? 1)%Z = false) by (apply Z.eqb_neq; lia).
  assert (Hne0 : (rc + 1 - 1 =? 0)%Z = false) by (apply Z.eqb_neq; lia).
  assert (Hback : (rc + 1 - 1)%Z = rc) by lia.
  assert (Hd : wrap_signed 32 (rc + 1 - 1) = (rc + 1 - 1)%Z).
  { apply wrap_decr. change (2 ^ 31)%Z with 2147483648%Z in *. lia. }
  split.
  - cbn [thread_run thread_step t_pc mbind option_bind goto send set_mutex
         set_reader_count set_wrt wrt mutex reader_count db t_sent t_open].
    rewrite wrap_incr by lia.
    by rewrite Hne1.
  - cbn [thread_run thread_step t_pc mbind option_bind goto send set_mutex
         set_reader_count set_wrt wrt mutex reader_count db t_sent t_open].
    rewrite wrap_incr by lia. rewrite Hne1.
    cbn [thread_run thread_step t_pc mbind option_bind goto send set_mutex
         set_reader_count set_wrt wrt mutex reader_count db t_sent t_open].
    rewrite Hd, Hne0.
    cbn [thread_run thread_step t_pc mbind option_bind goto send set_mutex
         set_reader_count set_wrt wrt mutex reader_count db t_sent t_open
         close_and_return].
    rewrite send_all, Hback. reflexivity.
Qed.

Lemma reader_joins_readers_witness :
  thread_run [ETau; ETau; ETau; ETau] (Shared 0 1 1 []) (Thread RLock1 [] true)
  = Some (Shared 0 1 2 [], Thread RFetch [] true).
Proof.
  assert (H : (1 ≤ reader_count (Shared 0 1 1 []) < 2 ^ 31 - 1)%Z)
    by (split; [discriminate | reflexivity]).
  pose proof (reader_joins_readers (λ _, EmptyString) DbReady (Shared 0 1 1 []) []
                eq_refl H) as [H1 _].
  exact H1.
Defined.

Section RoundTrip.

Lemma insert_by_timestamp_before_last (x d : doc) (l : list doc) :
  key_le (d_timestamp x) (d_timestamp d) = true →
  insert_by_timestamp x (l ++ [d]) = insert_by_timestamp x l ++ [d].
Proof.
  intros Hle. induction l as [|y l IH]; simpl.
  - by rewrite Hle.
  - destruct (key_le (d_timestamp x) (d_timestamp y)); [done |]. by rewrite IH.
Qed.

(** A document at least as recent as all the others comes last in the
    cursor. *)
Lemma find_sorted_latest (l : list doc) (d : doc) :
  Forall (λ x, key_le (d_timestamp x) (d_timestamp d) = true) l →
  find_sorted (l ++ [d]) = find_sorted l ++ [d].
Proof.
  unfold find_sorted. induction 1 as [|x l Hx _ IH]; [done |].
  cbn [app foldr]. rewrite IH. by apply insert_by_timestamp_before_last.
Qed.

End RoundTrip.

(** X11. What is appended is fetched: after a successful insertion of
    [msg] whose timestamp is not older than any stored one, the cursor of a
    later fetch is the former cursor followed by the new document, and the
    reader's buffer is the first 32767 bytes of the former lines followed
    by the new message's line; when those fit in 32767 bytes, the new reply
    is the old reply followed by that line. *)
Theorem appended_message_is_fetched
    (strftime_local : Z → string) (d : list doc) (ie : insert_env) (msg : string) :
  ins_status ie = DbReady → ins_error ie = None →
  let new := Doc (Some msg) (Some (wrap_signed 64 (ins_now ie * 1000))) in
  let old_lines := concat_lines (format_line strftime_local <$> find_sorted d) in
  Forall (λ x, key_le (d_timestamp x) (d_timestamp new) = true) d →
  let d' := (insert_message_to_db_pool d ie msg).1 in
  find_sorted d' = find_sorted d ++ [new] ∧
  fetch_messages_from_db_pool strftime_local DbReady (find_sorted d') OUT_SIZE
  = stake (OUT_SIZE - 1) (old_lines +:+ format_line strftime_local new) ∧
  (String.length (old_lines +:+ format_line strftime_local new) ≤ OUT_SIZE - 1 →
   fetch_messages_from_db_pool strftime_local DbReady (find_sorted d') OUT_SIZE
   = fetch_messages_from_db_pool strftime_local DbReady (find_sorted d) OUT_SIZE
     +:+ format_line strftime_local new).
Proof.
  intros Hst Herr new old_lines Hlatest d'.
  assert (Hd' : d' = d ++ [new]).
  { unfold d'. by rewrite insert_ok. }
  assert (Hcur : find_sorted d' = find_sorted d ++ [new]).
  { rewrite Hd'. by apply find_sorted_latest. }
  assert (Hlines : concat_lines (format_line strftime_local <$> find_sorted d')
                   = old_lines +:+ format_line strftime_local new).
  { rewrite Hcur, fmap_app, concat_lines_app. cbn [fmap list_fmap concat_lines foldr].
    by rewrite append_empty_r. }
  split; [done |]. rewrite !fetch_ready, Hlines. split; [done |].
  intros Hfit. fold old_lines. rewrite !stake_small; [done | | done].
  rewrite append_length in Hfit. lia.
Qed.

Lemma appended_message_is_fetched_witness :
  fetch_messages_from_db_pool (λ _, "1970-01-01 00:00:00") DbReady
    (find_sorted (insert_message_to_db_pool [Doc (Some "hello") (Some 0%Z)]
                    (InsertEnv DbReady 5 None) "later").1) OUT_SIZE
  = line "[1970-01-01 00:00:00] hello" +:+ line "[1970-01-01 00:00:00] later".
Proof.
  pose proof (appended_message_is_fetched (λ _, "1970-01-01 00:00:00")
                [Doc (Some "hello") (Some 0%Z)] (InsertEnv DbReady 5 None) "later"
                eq_refl eq_refl) as H.
  cbv zeta in H. destruct H as (_ & _ & H).
  - repeat constructor.
  - rewrite H; [reflexivity |]. apply Nat.leb_le. by vm_compute.
Defined.

Section Listener.

Lemma accept_loop_cons (running : bool) (o : accept_outcome)
    (rest : list (bool * accept_outcome)) :
  stays_up (running, o) = true →
  accept_loop ((running, o) :: rest)
  = (served o :: (accept_loop rest).1, (accept_loop rest).2).
Proof.
  unfold stays_up. cbn [fst snd accept_loop].
  intros [-> Ho]%andb_true_iff. cbn [negb].
  destruct o as [eintr ra | m c]; cbn [served].
  - apply negb_true_iff in Ho. rewrite Ho. by destruct (accept_loop rest).
  - by destruct (accept_loop rest).
Qed.

Lemma accept_loop_stop (running : bool) (o : accept_outcome)
    (rest : list (bool * accept_outcome)) :
  stays_up (running, o) = false → accept_loop ((running, o) :: rest) = ([], true).
Proof.
  unfold stays_up. cbn [fst snd accept_loop].
  destruct running; [|done]. cbn [negb andb].
  destruct o as [eintr ra | m c]; [|done].
  intros Ho%negb_false_iff. by rewrite Ho.
Qed.

Lemma run_accept_actions (hs : list handled) (s : server) :
  run (accept_actions hs) s
  = Some (Server (sh s) (pool s ++ replicate (started hs) new_thread)).
Proof.
  revert s; induction hs as [|h hs IH]; intros [g l].
  - cbn. by rewrite app_nil_r.
  - destruct h; cbn [accept_actions mbind list_bind app] in *.
    + cbn [run server_step mbind option_bind sh pool]. rewrite IH.
      cbn [sh pool]. unfold started. rewrite filter_cons_True by done.
      cbn [length replicate]. by rewrite <- app_assoc.
    + rewrite IH. unfold started. by rewrite filter_cons_False.
    + rewrite IH. unfold started. by rewrite filter_cons_False.
Qed.

End Listener.

(** X12. The accept loop serves until it is told to stop: it handles
    exactly the events before the first one at which [running] is read as
    cleared (at the loop test, or after an interrupted [accept]), each by
    its outcome: a thread is started when [malloc] and [pthread_create]
    succeed, the connection is closed unserved when either fails, a failed
    [accept] is retried; no failure of a single connection ends the loop.
    The loop leaves the lock and the running threads untouched and every
    thread it starts begins at the first [recv]. *)
Theorem accept_loop_serves_until_stopped
    (events : list (bool * accept_outcome)) (s : server) :
  ∃ n,
    n ≤ length events ∧
    (accept_loop events).1 = (λ ev, served ev.2) <$> take n events ∧
    Forall (λ ev, stays_up ev = true) (take n events) ∧
    ((accept_loop events).2 = false → n = length events) ∧
    ((accept_loop events).2 = true →
     ∃ ev, events !! n = Some ev ∧ stays_up ev = false) ∧
    run (accept_actions (accept_loop events).1) s
    = Some (Server (sh s)
              (pool s ++ replicate (started (accept_loop events).1) new_thread)).
Proof.
  assert (Hmain : ∃ n,
    n ≤ length events ∧
    (accept_loop events).1 = (λ ev, served ev.2) <$> take n events ∧
    Forall (λ ev, stays_up ev = true) (take n events) ∧
    ((accept_loop events).2 = false → n = length events) ∧
    ((accept_loop events).2 = true →
     ∃ ev, events !! n = Some ev ∧ stays_up ev = false)).
  { induction events as [|[running o] rest (n & Hn & Hhs & Hup & Hall & Hstop)].
    - exists 0. split_and!; try done.
    - destruct (stays_up (running, o)) eqn:Hev.
      + exists (S n). rewrite accept_loop_cons by done. cbn [fst snd].
        split_and!.
        * cbn. lia.
        * cbn [take fmap list_fmap]. cbn [snd]. by rewrite Hhs.
        * cbn [take]. by constructor.
        * intros H. cbn. by rewrite Hall.
        * intros H. by apply Hstop.
      + exists 0. rewrite accept_loop_stop by done. cbn [fst snd].
        split_and!; try done.
        * cbn. lia.
        * intros _. by exists (running, o). }
  destruct Hmain as (n & H1 & H2 & H3 & H4 & H5).
  exists n. split_and!; try done. apply run_accept_actions.
Qed.

Lemma accept_loop_serves_until_stopped_witness :
  accept_loop [(true, Accepted true true); (true, AcceptFailed false true);
               (true, Accepted true false); (false, Accepted true true)]
  = ([Started; Retried; ClosedUnserved], true).
Proof.
  destruct (accept_loop_serves_until_stopped
              [(true, Accepted true true); (true, AcceptFailed false true);
               (true, Accepted true false); (false, Accepted true true)]
              (init [])) as (n & _ & _ & _ & _ & Hstop & _).
  destruct (Hstop eq_refl) as (ev & _ & _). reflexivity.
Defined.

(* ===================================================================== *)
(** ** The client against the server *)
(* ===================================================================== *)

Section ClientFrames.

Lemma cstr_append_nul (token rest : string) :
  none_of (Ascii.eqb NUL) token = true →
  cstr (token +:+ String NUL rest) = token.
Proof.
  induction token as [|c token IH]; [done |]. cbn [none_of String.append cstr].
  intros [Hc Ht]%andb_true_iff. apply negb_true_iff in Hc.
  by rewrite Ascii.eqb_sym, Hc, IH.
Qed.

Lemma no_space_no_eol_end (token : string) :
  none_of is_space token = true → ends_in is_eol token = false.
Proof.
  induction token as [|c token IH]; [done |]. cbn [none_of ends_in].
  intros [Hc Ht]%andb_true_iff. destruct token as [|c' token]; [|by apply IH].
  apply negb_true_iff in Hc. unfold is_space in Hc. unfold is_eol, LF, CR.
  repeat (apply orb_false_iff in Hc as [Hc ?]). by apply orb_false_iff.
Qed.

Lemma overlay_length (new old : string) :
  String.length new ≤ String.length old →
  String.length (overlay new old) = String.length old.
Proof.
  intros H. unfold overlay. rewrite append_length, sdrop_length. lia.
Qed.

Lemma cut_at_newline_no_lf (s : string) :
  none_of (Ascii.eqb LF) (cut_at_newline s) = true.
Proof.
  induction s as [|c s IH]; [done |]. cbn [cut_at_newline].
  destruct (c =? LF)%char eqn:E; [done |]. cbn [none_of].
  by rewrite Ascii.eqb_sym, E, IH.
Qed.

Lemma cut_at_newline_length (s : string) :
  String.length (cut_at_newline s) ≤ String.length s.
Proof.
  induction s as [|c s IH]; [done |]. cbn [cut_at_newline].
  destruct (c =? LF)%char; cbn; lia.
Qed.

Lemma cut_at_newline_none_of (p : ascii → bool) (s : string) :
  none_of p s = true → none_of p (cut_at_newline s) = true.
Proof.
  induction s as [|c s IH]; [done |]. cbn [cut_at_newline none_of].
  intros [Hc Hs]%andb_true_iff.
  destruct (c =? LF)%char; [done |]. cbn [none_of]. by rewrite Hc, IH.
Qed.

Lemma cut_at_newline_line (cmd : string) :
  none_of (Ascii.eqb LF) cmd = true → cut_at_newline (cmd +:+ nl) = cmd.
Proof.
  induction cmd as [|c cmd IH]; [done |]. cbn [none_of String.append cut_at_newline].
  intros [Hc Hs]%andb_true_iff. apply negb_true_iff in Hc.
  by rewrite Ascii.eqb_sym, Hc, IH.
Qed.

End ClientFrames.

(** X13. The role frame of the client is read as the typed token: the
    client sends its whole ten-byte [mode] array, the token followed by a
    NUL and whatever the array held before; for a token of fewer than ten
    characters without white space, the server receives these ten bytes in
    one frame and, after NUL-termination and trimming, sees exactly the
    token, whatever the bytes after the NUL are.  For "writer" the handler
    enters the command loop without the lock and without a payload; for
    "reader" it starts the entry section. *)
Theorem client_role_frame_is_read (mode0 token : string) (t : thread) :
  String.length mode0 = CLIENT_MODE_SIZE →
  String.length token < CLIENT_MODE_SIZE →
  none_of is_space token = true →
  none_of (Ascii.eqb NUL) token = true →
  ∃ frame,
    client_role_frame mode0 token = Some frame ∧
    String.length frame = CLIENT_MODE_SIZE ∧
    recv (RecvBytes frame) = Some frame ∧
    rtrim (cstr frame) = token ∧
    (token = "writer" → on_first_frame (RecvBytes frame) t = goto (WLoop false) t) ∧
    (token = "reader" → on_first_frame (RecvBytes frame) t = goto RLock1 t).
Proof.
  intros Hm Hlen Hsp Hnul. unfold client_role_frame.
  replace (String.length token <? CLIENT_MODE_SIZE)%nat with true
    by (symmetry; by apply Nat.ltb_lt).
  eexists. split; [done |].
  set (arr := overlay (token +:+ String NUL EmptyString) mode0).
  assert (Harr : String.length arr = CLIENT_MODE_SIZE).
  { unfold arr. rewrite overlay_length; [done |].
    rewrite append_length. cbn. lia. }
  assert (Hframe : stake CLIENT_MODE_SIZE arr = arr) by (apply stake_small; lia).
  rewrite Hframe.
  assert (Hrecv : recv (RecvBytes arr) = Some arr).
  { unfold recv. rewrite stake_small.
    - destruct arr; [done | done].
    - rewrite Harr. apply Nat.leb_le. by vm_compute. }
  assert (Htext : rtrim (cstr arr) = token).
  { unfold arr, overlay. rewrite append_assoc. cbn [String.append].
    rewrite cstr_append_nul by done.
    rewrite <- (append_empty_r token) at 1.
    apply rtrim_keeps; [done |]. by apply no_space_no_eol_end. }
  split_and!; try done.
  - intros ->. unfold on_first_frame. by rewrite Hrecv, Htext.
  - intros ->. unfold on_first_frame. by rewrite Hrecv, Htext.
Qed.

Lemma client_role_frame_is_read_witness :
  ∃ frame,
    client_role_frame "0123456789" "writer" = Some frame ∧
    on_first_frame (RecvBytes frame) new_thread = Thread (WLoop false) [] true.
Proof.
  assert (Hlen : String.length "writer" < CLIENT_MODE_SIZE)
    by (apply Nat.ltb_lt; reflexivity).
  destruct (client_role_frame_is_read "0123456789" "writer" new_thread
              eq_refl Hlen eq_refl eq_refl)
    as (frame & Hf & _ & _ & _ & Hw & _).
  exists frame. split; [exact Hf |]. exact (Hw eq_refl).
Defined.

(** X14. A command line of the client reaches the server as typed: the
    frame the client sends for a line is the text before the first line
    feed, so it contains neither a line feed nor a NUL; a non-empty frame of
    a line that fits the client's buffer is received whole by the server,
    which sees it with trailing carriage returns removed, and sees exactly
    the typed command when the line is the command (free of NUL, LF and CR)
    followed by a line feed; and when the client leaves its loop (the frame
    is "exit") the server leaves its loop on that frame too. *)
Theorem client_line_is_read (line : string) (has_lock : bool) (t : thread) :
  String.length line ≤ CLIENT_BUFFER_SIZE - 1 →
  let frame := client_line_frame line in
  none_of (Ascii.eqb LF) frame = true ∧
  none_of (Ascii.eqb NUL) frame = true ∧
  (frame ≠ "" →
   recv (RecvBytes frame) = Some frame ∧ rtrim (cstr frame) = rtrim frame) ∧
  (∀ cmd, line = cmd +:+ nl →
          none_of (Ascii.eqb NUL) cmd = true → none_of is_eol cmd = true →
          frame = cmd ∧ rtrim (cstr frame) = cmd) ∧
  (strcmp0 frame "exit" = true →
   on_command has_lock (RecvBytes frame) t = goto (WTeardown has_lock) t).
Proof.
  intros Hlen frame.
  assert (Hnul : none_of (Ascii.eqb NUL) frame = true).
  { apply cut_at_newline_none_of, cstr_none_of_nul. }
  assert (Hrecv : frame ≠ "" → recv (RecvBytes frame) = Some frame).
  { intros Hne. unfold recv. rewrite stake_small.
    - by destruct frame.
    - pose proof (cut_at_newline_length (cstr line)). pose proof (cstr_length line).
      unfold frame, client_line_frame.
      assert (CLIENT_BUFFER_SIZE - 1 ≤ BUFFER_SIZE - 1)
        by (apply Nat.leb_le; by vm_compute).
      lia. }
  split_and!.
  - apply cut_at_newline_no_lf.
  - done.
  - intros Hne. split; [by apply Hrecv |]. by rewrite cstr_no_nul.
  - intros cmd -> Hcn Hce.
    assert (Hlf : none_of (Ascii.eqb LF) cmd = true).
    { clear -Hce. induction cmd as [|c cmd IH]; [done |]. cbn [none_of] in *.
      apply andb_true_iff in Hce as [Hc Hs]. rewrite IH by done.
      apply negb_true_iff in Hc. unfold is_eol in Hc.
      apply orb_false_iff in Hc as [Hc _]. by rewrite Ascii.eqb_sym, Hc. }
    assert (Hf : frame = cmd).
    { unfold frame, client_line_frame. rewrite cstr_no_nul.
      - by apply cut_at_newline_line.
      - unfold nl. rewrite none_of_append, Hcn. done. }
    split; [done |]. rewrite Hf, cstr_no_nul by done.
    rewrite <- (append_empty_r cmd) at 1. apply rtrim_keeps; [done |].
    clear -Hce. induction cmd as [|c cmd IH]; [done |]. cbn [none_of ends_in] in *.
    apply andb_true_iff in Hce as [Hc Hs]. destruct cmd; [|by apply IH].
    by apply negb_true_iff.
  - intros Hx%String.eqb_eq. unfold on_command.
    rewrite Hrecv by (by rewrite Hx). by rewrite Hx.
Qed.

Lemma client_line_is_read_witness :
  client_line_frame ("start" +:+ nl) = "start" ∧
  rtrim (cstr (client_line_frame ("start" +:+ nl))) = "start".
Proof.
  assert (Hlen : String.length ("start" +:+ nl) ≤ CLIENT_BUFFER_SIZE - 1)
    by (apply Nat.leb_le; by vm_compute).
  destruct (client_line_is_read ("start" +:+ nl) false new_thread Hlen)
    as (_ & _ & _ & Hcmd & _).
  exact (Hcmd "start" eq_refl eq_refl eq_refl).
Defined.

(* ===================================================================== *)
(** ** Replies *)
(* ===================================================================== *)

Section Replies.

Lemma format_line_length (strftime_local : Z → string) (d : doc) :
  String.length (format_line strftime_local d) ≤ LINE_SIZE - 1.
Proof. unfold format_line, snprintf. rewrite stake_length. apply Nat.le_min_l. Qed.

Lemma concat_lines_length (strftime_local : Z → string) (l : list doc) :
  String.length (concat_lines (format_line strftime_local <$> l))
  ≤ (LINE_SIZE - 1) * length l.
Proof.
  induction l as [|d l IH]; [cbn; lia |].
  cbn [fmap list_fmap concat_lines foldr length].
  fold (concat_lines (format_line strftime_local <$> l)).
  rewrite append_length. pose proof (format_line_length strftime_local d).
  rewrite Nat.mul_succ_r. lia.
Qed.

Lemma step_keeps_replies (e : env) (g g' : shared) (t t' : thread) :
  thread_step e g t = Some (g', t') → writer_replies_ok t → writer_replies_ok t'.
Proof.
  unfold writer_replies_ok. intros Hstep [Hnew Hw]. unfold thread_step in Hstep.
  destruct t as [p sent o]. cbn [t_pc t_sent] in *.
  destruct p; destruct e; try discriminate Hstep.
  all: try (destruct (mutex g); [discriminate Hstep |]).
  all: try match type of Hstep with
           | context [(reader_count ?x =? 1)%Z] =>
               destruct (reader_count x =? 1)%Z;
               [destruct (wrt x); [discriminate Hstep |] |]
           end.
  all: try (destruct (wrt g); [discriminate Hstep |]).
  all: try (injection Hstep as <- <-; split; [done |];
            cbn [t_pc t_sent goto send close_and_return pc_role];
            intros Hr;
            first [ discriminate Hr
                  | apply Forall_app; split; [by apply Hw | by repeat constructor] ]).
  - injection Hstep as <- <-. rewrite (Hnew eq_refl).
    unfold on_first_frame. destruct (recv r) as [bytes|]; [|done].
    destruct (mode_of _); try done.
    destruct (p_after _) as [p|]; [|done].
    destruct (0 <? _)%nat; [|done].
    destruct (strcmp0 p "start"); [done |].
    destruct (strcmp0 p "stop"); (split; [done |]); intros _; by repeat constructor.
  - injection Hstep as <- <-. specialize (Hw eq_refl).
    unfold on_command. destruct (recv r) as [bytes|]; [|done].
    destruct (_ =? 0)%nat; [done |].
    destruct (strcmp0 _ "start"); [done |].
    destruct (strcmp0 _ "stop").
    { destruct has_lock; [done |]. split; [done |]. intros _.
      apply Forall_app. split; [done |]. by repeat constructor. }
    destruct (strcmp0 _ "exit"); [done |].
    destruct has_lock; [done |]. split; [done |]. intros _.
    apply Forall_app. split; [done |]. by repeat constructor.
  - pose proof (insert_result_prefix (db g) e msg) as Hp.
    destruct (insert_message_to_db_pool (db g) e msg) as [db' res].
    injection Hstep as <- <-. split; [done |]. intros _. cbn.
    apply Forall_app. split; [by apply Hw |]. constructor; [|done].
    rewrite send_all. unfold ok_or_error. cbn in Hp.
    destruct Hp as [-> | ->]; [done | by rewrite orb_true_r].
Qed.

End Replies.

(** X15. A log of at most 32 messages is never cut by the reply buffer:
    every formatted line has at most 1023 bytes, so with at most 32 stored
    documents and the database available the reader's frame is the
    concatenation of all formatted lines, in cursor order. *)
Theorem short_log_is_never_cut
    (strftime_local : Z → string) (g : shared) (t : thread) :
  t_pc t = RFetch → length (db g) ≤ 32 →
  thread_step (EFetch DbReady strftime_local) g t
  = Some (g, goto RLock2
               (send (concat_lines (format_line strftime_local <$> find_sorted (db g))) t)) ∧
  Forall (λ l, String.length l ≤ LINE_SIZE - 1)
         (format_line strftime_local <$> find_sorted (db g)).
Proof.
  intros Hpc Hn. split.
  - rewrite fetch_step, fetch_ready by done. rewrite stake_small; [done |].
    pose proof (concat_lines_length strftime_local (find_sorted (db g))) as Hl.
    rewrite (Permutation_length (find_sorted_perm (db g))) in Hl.
    assert (Hmul : (LINE_SIZE - 1) * length (db g) ≤ (LINE_SIZE - 1) * 32)
      by (by apply Nat.mul_le_mono_l).
    assert (Hcap : (LINE_SIZE - 1) * 32 ≤ OUT_SIZE - 1)
      by (apply Nat.leb_le; by vm_compute).
    lia.
  - apply Forall_fmap, Forall_forall. intros d _. apply format_line_length.
Qed.

Lemma short_log_is_never_cut_witness :
  thread_step (EFetch DbReady (λ _, "1970-01-01 00:00:00"))
              (Shared 0 1 1 [Doc None None]) (Thread RFetch [] true)
  = Some (Shared 0 1 1 [Doc None None],
          Thread RLock2 [line "[1970-01-01 00:00:00] (null)"] true).
Proof.
  assert (Hn : length (db (Shared 0 1 1 [Doc None None])) ≤ 32) by (cbn; lia).
  exact (proj1 (short_log_is_never_cut (λ _, "1970-01-01 00:00:00")
                  (Shared 0 1 1 [Doc None None]) (Thread RFetch [] true) eq_refl Hn)).
Defined.

(** X16. Every reply to a writer starts with "OK: " or "ERROR: ": in
    every reachable state, whatever a thread in the writer branch has sent
    on its socket consists of such replies only. *)
Theorem writer_replies_are_prefixed
    (db0 : list doc) (s : server) (i : nat) (t : thread) :
  reachable db0 s → pool s !! i = Some t → pc_role (t_pc t) = Writer →
  Forall (λ reply, String.prefix "OK: " reply = true ∨
                   String.prefix "ERROR: " reply = true) (t_sent t).
Proof.
  intros Hreach Hi Hrole.
  assert (Hok : writer_replies_ok t).
  { refine (Forall_lookup_1 _ _ _ _
              (reachable_threads writer_replies_ok _ _ db0 s Hreach) Hi).
    - by split.
    - intros. by eapply step_keeps_replies. }
  destruct Hok as [_ Hw]. eapply Forall_impl; [by apply Hw |].
  intros reply Hr. unfold ok_or_error in Hr. by apply orb_true_iff in Hr.
Qed.

Lemma writer_replies_are_prefixed_witness :
  Forall (λ reply, String.prefix "OK: " reply = true ∨
                   String.prefix "ERROR: " reply = true)
         [line "ERROR: start writing first"; "OK: writer session started"].
Proof.
  refine (writer_replies_are_prefixed []
            (Server (Shared 0 1 0 [])
               [Thread (WLoop true)
                  [line "ERROR: start writing first"; "OK: writer session started"] true])
            0 _ (ex_intro _ [Accept; Run 0 (ERecv (RecvBytes "writer hello"));
                             Run 0 (ERecv (RecvBytes "start")); Run 0 ETau] _)
            eq_refl eq_refl).
  reflexivity.
Defined.


